(** * usocks tunnel client: a shallow embedding of [client.py] and
      [frontend/redirect.py], and the properties of its reactor.

    The Python objects are modelled as records, the mutable object graph as a
    heap of [Connection] objects addressed by reference, exceptions and
    mutation as a state-and-exception monad in which the state survives a
    raise (as the heap of a Python program does). *)

From Stdlib Require Import ZArith List Lia Bool.
From Stdlib.Strings Require Import Byte String.
From stdpp Require Import base option list gmap fin_maps strings.

Import ListNotations.
Local Open Scope Z_scope.

Abbreviation bytes := (list byte).

(** ** Exceptions and the state-and-exception monad *)

(** The exceptions the two source files raise, catch or let through.
    [RecursionLimit] is the only one that is not Python's: a loop that is
    given too little fuel, or a schedule of iterations that ends while the
    reactor is still running, stops with it. *)
Inductive exn : Type :=
  | KeyError (key : Z)
  | socket_error (errno : Z)
  | select_error (errno : Z)
  | ConnectionClosedException
  | ReferenceError
  | RecursionLimit.

Inductive res (A : Type) : Type :=
  | Ok (a : A)
  | Raise (e : exn).
Arguments Ok {A} a.
Arguments Raise {A} e.

Definition M (S A : Type) : Type := S -> res A * S.

Definition ret {S A} (a : A) : M S A := fun s => (Ok a, s).
Definition raise {S A} (e : exn) : M S A := fun s => (Raise e, s).
Definition bind {S A B} (m : M S A) (k : A -> M S B) : M S B :=
  fun s => match m s with
           | (Ok a, s') => k a s'
           | (Raise e, s') => (Raise e, s')
           end.
Definition get {S} : M S S := fun s => (Ok s, s).
Definition gets {S A} (f : S -> A) : M S A := fun s => (Ok (f s), s).
Definition modify {S} (f : S -> S) : M S unit := fun s => (Ok tt, f s).

(** [try m except h]: the handler sees the state as the failed body left it. *)
Definition try_except {S A} (m : M S A) (h : exn -> M S A) : M S A :=
  fun s => match m s with
           | (Ok a, s') => (Ok a, s')
           | (Raise e, s') => h e s'
           end.

#[global] Instance M_ret {S} : MRet (M S) := fun A a => ret a.
#[global] Instance M_bind {S} : MBind (M S) := fun A B k m => bind m k.

Definition when {S} (b : bool) (m : M S unit) : M S unit :=
  if b then m else ret tt.

(** ** errno values (Linux) *)
Module errno.
Definition EINTR : Z := 4.
Definition EBADF : Z := 9.
Definition EWOULDBLOCK : Z := 11.
Definition ECONNRESET : Z := 104.
End errno.

(** Python truthiness of a byte string and of an optional byte string. *)
Definition truthy (b : bytes) : bool :=
  match b with [] => false | _ :: _ => true end.
Definition truthy_opt (d : option bytes) : bool :=
  match d with Some b => truthy b | None => false end.

(** ** The non-blocking socket both files drive

    [sock_room] is the room left in the kernel's send buffer, [sock_wire]
    the bytes the kernel accepted so far (what the peer gets), [sock_inbox]
    the bytes received and not yet read, [sock_eof] whether the peer has
    shut its side down, [sock_error] a pending error the next transfer
    reports.  After [close] every call but [close] raises EBADF, as the
    closed socket object of Python 2 does. *)
Record Socket : Type := mkSocket {
  sock_fileno : Z;
  sock_closed : bool;
  sock_blocking : bool;
  sock_linger : option (Z * Z);
  sock_error : option Z;
  sock_room : nat;
  sock_wire : bytes;
  sock_inbox : bytes;
  sock_eof : bool
}.

Module Sock.

Definition live {A} (m : M Socket A) : M Socket A :=
  fun s => if sock_closed s then (Raise (socket_error errno.EBADF), s) else m s.

Definition set_blocking (b : bool) (s : Socket) : Socket :=
  mkSocket (sock_fileno s) (sock_closed s) b (sock_linger s) (sock_error s)
           (sock_room s) (sock_wire s) (sock_inbox s) (sock_eof s).
Definition set_linger (l : Z * Z) (s : Socket) : Socket :=
  mkSocket (sock_fileno s) (sock_closed s) (sock_blocking s) (Some l)
           (sock_error s) (sock_room s) (sock_wire s) (sock_inbox s) (sock_eof s).
Definition set_closed (s : Socket) : Socket :=
  mkSocket (sock_fileno s) true (sock_blocking s) (sock_linger s)
           (sock_error s) (sock_room s) (sock_wire s) (sock_inbox s) (sock_eof s).
Definition accept_bytes (n : nat) (buf : bytes) (s : Socket) : Socket :=
  mkSocket (sock_fileno s) (sock_closed s) (sock_blocking s) (sock_linger s)
           (sock_error s) (sock_room s - n) (sock_wire s ++ take n buf)
           (sock_inbox s) (sock_eof s).
Definition consume (n : nat) (s : Socket) : Socket :=
  mkSocket (sock_fileno s) (sock_closed s) (sock_blocking s) (sock_linger s)
           (sock_error s) (sock_room s) (sock_wire s)
           (drop n (sock_inbox s)) (sock_eof s).

Definition fileno : M Socket Z := live (gets sock_fileno).

Definition setblocking (b : bool) : M Socket unit :=
  live (modify (set_blocking b)).

(** [setsockopt(SOL_SOCKET, SO_LINGER, pack("ii", onoff, linger))] *)
Definition setsockopt_linger (onoff linger : Z) : M Socket unit :=
  live (modify (set_linger (onoff, linger))).

Definition close : M Socket unit := modify set_closed.

(** [accept()], as far as the listening socket itself goes: it has to be
    open.  The connection it returns is taken from the reactor's
    [backlog]. *)
Definition listening : M Socket unit := live (ret tt).

(** [send(buf)]: the kernel takes what fits, at least one byte, or the
    call fails with EWOULDBLOCK when nothing fits. *)
Definition send (buf : bytes) : M Socket nat :=
  live (fun s =>
    match sock_error s with
    | Some e => (Raise (socket_error e), s)
    | None =>
        match sock_room s with
        | O => (Raise (socket_error errno.EWOULDBLOCK), s)
        | _ => let n := Nat.min (length buf) (sock_room s) in
               (Ok n, accept_bytes n buf s)
        end
    end).

(** [recv(bufsize)]: at most [bufsize] bytes of what has arrived; the
    empty string once the peer has closed and all was read. *)
Definition recv (bufsize : nat) : M Socket bytes :=
  live (fun s =>
    match sock_error s with
    | Some e => (Raise (socket_error e), s)
    | None =>
        match sock_inbox s with
        | [] => if sock_eof s then (Ok [], s)
                else (Raise (socket_error errno.EWOULDBLOCK), s)
        | _ :: _ => (Ok (take bufsize (sock_inbox s)), consume bufsize s)
        end
    end).

End Sock.

(** ** [class Connection] of client.py *)
Record Connection : Type := mkConnection {
  conn : Socket;
  conn_id : Z;
  send_buf : bytes
}.

Module Connection.

(** A call on [self.conn]. *)
Definition on_conn {A} (m : M Socket A) : M Connection A :=
  fun c => match m (conn c) with
           | (r, s') => (r, mkConnection s' (conn_id c) (send_buf c))
           end.

Definition set_send_buf (b : bytes) (c : Connection) : Connection :=
  mkConnection (conn c) (conn_id c) b.

(** [__init__(self, conn, conn_id)] *)
Definition init (s : Socket) (id : Z) : res Connection * Socket :=
  match Sock.setblocking false s with
  | (Ok _, s') => (Ok (mkConnection s' id []), s')
  | (Raise e, s') => (Raise e, s')
  end.

(** [send(self, data=None)] *)
Definition send (data : option bytes) : M Connection unit :=
  when (truthy_opt data)
       (modify (fun c => set_send_buf (send_buf c ++ default [] data) c)) ;;
  buf ← gets send_buf;
  if negb (truthy buf) then ret tt
  else
    sent ← try_except (on_conn (Sock.send buf))
              (fun e => match e with
                        | socket_error en =>
                            if Z.eqb en errno.EWOULDBLOCK then ret 0%nat
                            else raise e
                        | _ => raise e
                        end);
    match sent with
    | O => ret tt
    | _ => modify (fun c => set_send_buf (drop sent (send_buf c)) c)
    end.

(** [close(self)] *)
Definition close : M Connection unit :=
  on_conn (Sock.setblocking true) ;;
  on_conn Sock.close.

(** [reset(self)] *)
Definition reset : M Connection unit :=
  on_conn (Sock.setsockopt_linger 1 0) ;;
  close.

(** [self.fileno()], forwarded to the socket by [__getattr__]. *)
Definition fileno : M Connection Z := on_conn Sock.fileno.

(** [get_rlist(self)] *)
Definition get_rlist : M Connection (list Z) :=
  fd ← fileno ; ret [fd].

(** [get_wlist(self)]: [None] is Python's implicit return value. *)
Definition get_wlist : M Connection (option (list Z)) :=
  buf ← gets send_buf;
  if truthy buf then fd ← fileno ; ret (Some [fd])
  else ret None.

(** [self.recv(n)] and [self.accept()] reach the socket through
    [__getattr__] too. *)
Definition recv (n : nat) : M Connection bytes := on_conn (Sock.recv n).
Definition listening : M Connection unit := on_conn Sock.listening.

End Connection.

(** ** The layers above the backend: tunnel.py, record.py and the backend

    These modules are not among the sources, so the tunnel, the record
    connection it wraps and the backend under both are one shared state [U]
    with the operations client.py calls on them.  [receive_packets] is a
    generator: what it yields, the state it is in after each step, and how
    it ends.  [wait_writable] is [select.select([], wlist, [])] of the drain
    loop, during which the backend makes room. *)
Inductive Gen (U : Type) : Type :=
  | GYield (p : Z * Z * bytes) (u : U) (rest : Gen U)
  | GStop (u : U)
  | GRaise (e : exn) (u : U).
Arguments GYield {U} p u rest.
Arguments GStop {U} u.
Arguments GRaise {U} e u.

(** [tunnel.StatusControl]: the flag bits of a packet's control field. *)
Record StatusControl : Type := mkStatusControl {
  dat : Z;
  fin : Z;
  rst : Z
}.

Class Upstream (U : Type) : Type := {
  status : StatusControl;
  tunnel_available : U -> bool;
  tunnel_get_rlist : U -> list Z;
  tunnel_get_wlist : U -> list Z;
  tunnel_new_connection : M U Z;
  tunnel_send_packet : Z -> bytes -> M U unit;
  tunnel_close_connection : Z -> M U unit;
  tunnel_reset_connection : Z -> M U unit;
  tunnel_continue_sending : M U unit;
  tunnel_receive_packets : U -> Gen U;
  record_close : M U unit;
  record_get_wlist : U -> list Z;
  record_continue_sending : M U unit;
  backend_close : M U unit;
  wait_writable : list Z -> M U unit
}.

(** ** The reactor's world *)

(** Object identity: a [Connection] object is a reference into the heap;
    the tunnel is the one other object the select dictionaries hold. *)
Abbreviation ref := nat.

Inductive Entity : Type :=
  | TheTunnel
  | Obj (r : ref).

#[global] Instance Entity_eq_dec : EqDecision Entity.
Proof. solve_decision. Defined.

(** The calls the reactor makes on its collaborators, in the order made. *)
Inductive Method : Type :=
  | m_send (data : option bytes)
  | m_recv
  | m_accept
  | m_close
  | m_reset.

Inductive Event : Type :=
  | ev_conn (r : ref) (m : Method)
  | ev_new_connection
  | ev_send_packet (conn_id : Z) (data : bytes)
  | ev_close_connection (conn_id : Z)
  | ev_reset_connection (conn_id : Z)
  | ev_tunnel_continue
  | ev_receive_packets
  | ev_record_close
  | ev_record_continue
  | ev_select (wlist : list Z)
  | ev_backend_close.

(** [class TunnelClient]: [objs] is the heap of [Connection] objects,
    [local_conn] the listening one, [backlog] the connections waiting in the
    listening socket's queue, [conns] the dictionary [self.conns]. *)
Record TunnelClient (U : Type) : Type := mkTunnelClient {
  objs : gmap ref Connection;
  local_conn : ref;
  backlog : list Socket;
  upstream : U;
  conns : gmap Z ref;
  running : bool;
  log : list Event
}.
Arguments mkTunnelClient {U}.
Arguments objs {U}.
Arguments local_conn {U}.
Arguments backlog {U}.
Arguments upstream {U}.
Arguments conns {U}.
Arguments running {U}.
Arguments log {U}.

(** [util.ObjectSet]. *)
Module ObjectSet.
(** Modelled from the spec: util.py is not among the sources; the set
    [_process] keeps so that "each entity is flushed at most once per
    iteration" holds objects compared by identity. *)
Definition t : Type := list Entity.
Definition empty : t := [].
Definition add (e : Entity) (s : t) : t := e :: s.
Definition contains (e : Entity) (s : t) : bool := bool_decide (e ∈ s).
End ObjectSet.

(** What one pass of the loop gets from outside: the outcome of
    [select.select], the two dictionaries [get_select_list] built (util.py
    is not among the sources), and whether a termination signal arrived. *)
Record Tick : Type := mkTick {
  select_result : res (list Z * list Z);
  rdict : gmap Z Entity;
  wdict : gmap Z Entity;
  signalled : bool
}.

Section Reactor.
Context {U : Type} `{!Upstream U}.

Abbreviation Client := (TunnelClient U).

Definition set_objs (o : gmap ref Connection) (st : Client) : Client :=
  mkTunnelClient o (local_conn st) (backlog st) (upstream st) (conns st)
                 (running st) (log st).
Definition set_backlog (b : list Socket) (st : Client) : Client :=
  mkTunnelClient (objs st) (local_conn st) b (upstream st) (conns st)
                 (running st) (log st).
Definition set_upstream (u : U) (st : Client) : Client :=
  mkTunnelClient (objs st) (local_conn st) (backlog st) u (conns st)
                 (running st) (log st).
Definition set_conns (c : gmap Z ref) (st : Client) : Client :=
  mkTunnelClient (objs st) (local_conn st) (backlog st) (upstream st) c
                 (running st) (log st).
Definition set_running (b : bool) (st : Client) : Client :=
  mkTunnelClient (objs st) (local_conn st) (backlog st) (upstream st)
                 (conns st) b (log st).
Definition set_log (l : list Event) (st : Client) : Client :=
  mkTunnelClient (objs st) (local_conn st) (backlog st) (upstream st)
                 (conns st) (running st) l.

Definition emit (e : Event) : M Client unit :=
  modify (fun st => set_log (log st ++ [e]) st).

(** A method of the object at [r], run on the heap. *)
Definition on_obj {A} (r : ref) (m : M Connection A) : M Client A :=
  fun st => match objs st !! r with
            | None => (Raise ReferenceError, st)
            | Some c => match m c with
                        | (x, c') => (x, set_objs (<[r := c']> (objs st)) st)
                        end
            end.

Definition on_upstream {A} (m : M U A) : M Client A :=
  fun st => match m (upstream st) with
            | (x, u') => (x, set_upstream u' st)
            end.

Definition call {A} (r : ref) (meth : Method) (m : M Connection A) : M Client A :=
  emit (ev_conn r meth) ;; on_obj r m.

Definition upcall {A} (e : Event) (m : M U A) : M Client A :=
  emit e ;; on_upstream m.

(** [d[k]] on a dictionary. *)
Definition subscript {V} (d : gmap Z V) (k : Z) : M Client V :=
  match d !! k with
  | Some v => ret v
  | None => raise (KeyError k)
  end.

(** [k in self.conns] *)
Definition in_conns (k : Z) : M Client bool :=
  gets (fun st => bool_decide (is_Some (conns st !! k))).

(** [del self.conns[k]] *)
Definition del_conns (k : Z) : M Client unit :=
  c ← gets conns;
  subscript c k ;;
  modify (set_conns (delete k c)).

(** [control & StatusControl.x], as a condition. *)
Definition has_flag (control mask : Z) : bool :=
  negb (Z.land control mask =? 0).

(** [_close_connection(self, conn_id, reset=False)] *)
Definition _close_connection (conn_id : Z) (reset : bool) : M Client unit :=
  (if reset then
     c ← gets conns; r ← subscript c conn_id;
     call r m_reset Connection.reset
   else
     c ← gets conns; r ← subscript c conn_id;
     call r m_close Connection.close) ;;
  del_conns conn_id.

(** The body of the loop of [_process_tunnel], for one packet. *)
Definition handle_packet (p : Z * Z * bytes) : M Client unit :=
  let '(conn_id, control, data) := p in
  known ← in_conns conn_id;
  if negb known then ret tt
  else
    c ← gets conns; conn ← subscript c conn_id;
    when (has_flag control (rst status)) (_close_connection conn_id true) ;;
    when (has_flag control (dat status))
         (call conn (m_send (Some data)) (Connection.send (Some data))) ;;
    when (has_flag control (fin status)) (_close_connection conn_id false).

Fixpoint receive_loop (g : Gen U) : M Client unit :=
  match g with
  | GYield p u rest =>
      modify (set_upstream u) ;; handle_packet p ;; receive_loop rest
  | GStop u => modify (set_upstream u)
  | GRaise e u => modify (set_upstream u) ;; raise e
  end.

(** [_process_tunnel(self)] *)
Definition _process_tunnel : M Client unit :=
  try_except
    (emit ev_receive_packets ;;
     g ← gets (fun st => tunnel_receive_packets (upstream st));
     receive_loop g)
    (fun e => match e with
              | ConnectionClosedException => modify (set_running false)
              | _ => raise e
              end).

(** [self.local_conn.accept()] on the non-blocking listening socket. *)
Definition accept : M Client Socket :=
  lc ← gets local_conn;
  call lc m_accept Connection.listening ;;
  b ← gets backlog;
  match b with
  | [] => raise (socket_error errno.EWOULDBLOCK)
  | s :: rest => modify (set_backlog rest) ;; ret s
  end.

(** [Connection(conn, conn_id)]: a new object on the heap. *)
Definition new_Connection (s : Socket) (id : Z) : M Client ref :=
  match Connection.init s id with
  | (Ok c, _) =>
      o ← gets objs;
      let r := fresh (dom o) in
      modify (set_objs (<[r := c]> o)) ;; ret r
  | (Raise e, _) => raise e
  end.

(** [_process_listening(self)] *)
Definition _process_listening : M Client unit :=
  s ← accept;
  conn_id ← upcall ev_new_connection tunnel_new_connection;
  r ← new_Connection s conn_id;
  modify (fun st => set_conns (<[conn_id := r]> (conns st)) st).

(** [_process_connection(self, conn)] *)
Definition _process_connection (r : ref) : M Client unit :=
  conn_id ← on_obj r (gets conn_id);
  got ← try_except
          (data ← call r m_recv (Connection.recv 4096); ret (Some data))
          (fun e => match e with
                    | socket_error en =>
                        if en =? errno.ECONNRESET then
                          upcall (ev_reset_connection conn_id)
                                 (tunnel_reset_connection conn_id) ;;
                          _close_connection conn_id false ;;
                          ret None
                        else raise e
                    | _ => raise e
                    end);
  match got with
  | None => ret tt
  | Some data =>
      if negb (truthy data) then
        upcall (ev_close_connection conn_id) (tunnel_close_connection conn_id) ;;
        _close_connection conn_id false
      else
        upcall (ev_send_packet conn_id data) (tunnel_send_packet conn_id data)
  end.

(** [_process_sending(self, conn)] *)
Definition _process_sending (e : Entity) : M Client unit :=
  match e with
  | TheTunnel => upcall ev_tunnel_continue tunnel_continue_sending
  | Obj r =>
      conn_id ← on_obj r (gets conn_id);
      known ← in_conns conn_id;
      if (known : bool) then call r (m_send None) (Connection.send None) else ret tt
  end.

(** The first loop of [_process]: [for fileno in rlist]. *)
Definition dispatch (e : Entity) : M Client unit :=
  match e with
  | TheTunnel => _process_tunnel
  | Obj r =>
      lc ← gets local_conn;
      if bool_decide (r = lc) then _process_listening
      else
        conn_id ← on_obj r (gets conn_id);
        known ← in_conns conn_id;
        if (known : bool) then _process_connection r else ret tt
  end.

Fixpoint read_loop (rd : gmap Z Entity) (rlist : list Z) : M Client unit :=
  match rlist with
  | [] => ret tt
  | fileno :: rest =>
      e ← subscript rd fileno;
      dispatch e ;; read_loop rd rest
  end.

(** The second loop: [for fileno in wlist], with [written_conns]. *)
Fixpoint write_loop (wd : gmap Z Entity) (wlist : list Z)
         (written_conns : ObjectSet.t) : M Client unit :=
  match wlist with
  | [] => ret tt
  | fileno :: rest =>
      e ← subscript wd fileno;
      if ObjectSet.contains e written_conns then write_loop wd rest written_conns
      else _process_sending e ;;
           write_loop wd rest (ObjectSet.add e written_conns)
  end.

(** [_process(self)].  The two calls of [get_select_list] and the call of
    [select.select] are what the [Tick] stands for. *)
Definition _process (t : Tick) : M Client unit :=
  match select_result t with
  | Raise (select_error en) =>
      if en =? errno.EINTR then ret tt else raise (select_error en)
  | Raise e => raise e
  | Ok (rlist, wlist) =>
      read_loop (rdict t) rlist ;;
      write_loop (wdict t) wlist ObjectSet.empty
  end.

(** [for conn in self.conns.itervalues(): conn.close()] *)
Fixpoint close_each (rs : list ref) : M Client unit :=
  match rs with
  | [] => ret tt
  | r :: rest => call r m_close Connection.close ;; close_each rest
  end.

Definition itervalues (st : Client) : list ref :=
  (map_to_list (conns st)).*2.

(** The [while True] loop at the end of [run]. *)
Fixpoint drain (fuel : nat) : M Client unit :=
  match fuel with
  | O => raise RecursionLimit
  | S n =>
      wlist ← gets (fun st => record_get_wlist (upstream st));
      match wlist with
      | [] => ret tt
      | _ :: _ =>
          upcall (ev_select wlist) (wait_writable wlist) ;;
          upcall ev_record_continue record_continue_sending ;;
          drain n
      end
  end.

(** [run] after its [while self.running] loop. *)
Definition shutdown (fuel : nat) : M Client unit :=
  lc ← gets local_conn;
  call lc m_close Connection.close ;;
  rs ← gets itervalues;
  close_each rs ;;
  upcall ev_record_close record_close ;;
  drain fuel ;;
  upcall ev_backend_close backend_close.

(** [while self.running: self._process()], one [Tick] per pass. *)
Fixpoint run_loop (ticks : list Tick) : M Client unit :=
  match ticks with
  | [] =>
      go ← gets running;
      if negb go then ret tt else raise RecursionLimit
  | t :: rest =>
      go ← gets running;
      if negb go then ret tt
      else _process t ;;
           when (signalled t) (modify (set_running false)) ;;
           run_loop rest
  end.

(** [run(self)] *)
Definition run (ticks : list Tick) (fuel : nat) : M Client unit :=
  modify (set_running true) ;;
  run_loop ticks ;;
  shutdown fuel.

End Reactor.

(** ** [class FrontendServer] of frontend/redirect.py *)
Module FrontendServer.

Record t : Type := mk {
  conn : Socket;
  send_buf : bytes
}.

Definition on_conn {A} (m : M Socket A) : M t A :=
  fun f => match m (conn f) with
           | (r, s') => (r, mk s' (send_buf f))
           end.

Definition set_send_buf (b : bytes) (f : t) : t := mk (conn f) b.

(** [_continue(self)] *)
Definition _continue : M t bool :=
  buf ← gets send_buf;
  when (truthy buf)
       (sent ← try_except (on_conn (Sock.send buf))
                 (fun e => match e with
                           | socket_error en =>
                               if en =? errno.EWOULDBLOCK then ret 0%nat
                               else raise e
                           | _ => raise e
                           end);
        match sent with
        | O => ret tt
        | _ => modify (fun f => set_send_buf (drop sent (send_buf f)) f)
        end) ;;
  buf' ← gets send_buf;
  ret (negb (truthy buf')).

(** [send(self, data=None)] *)
Definition send (data : option bytes) : M t bool :=
  when (truthy_opt data)
       (modify (fun f => set_send_buf (send_buf f ++ default [] data) f)) ;;
  _continue.

(** [recv(self)]: [None] stands for Python's [None]. *)
Definition recv : M t (option bytes) :=
  data ← on_conn (Sock.recv 4096);
  ret (match data with
       | [] => None
       | _ :: _ => Some data
       end).

(** [close(self)] and [fileno(self)] *)
Definition close : M t unit := on_conn Sock.close.
Definition fileno : M t Z := on_conn Sock.fileno.

End FrontendServer.

(** ** [main()] of client.py, up to the construction of the client *)
Module Main.

(** How [main] ends when it does not reach [TunnelClient(config['client'])]:
    [sys.exit] with its argument, or an exception nothing catches. *)
Inductive halt : Type :=
  | SystemExit (code : option Z)
  | NameError (name : string)
  | AssertionError (msg : string)
  | IOError.

Inductive result (A : Type) : Type :=
  | Go (a : A)
  | Halt (h : halt).
Arguments Go {A} a.
Arguments Halt {A} h.

(** What [main] reads from outside: the options [getopt.getopt] returns
    for the command line ([None] when it raises [GetoptError]), the two
    default paths, [path.exists], and [yaml.load(open(f, "r"))], whose
    document is taken to be a mapping of sections ([None] when opening or
    parsing raises; [IOError] below stands for that exception). *)
Record Env (V : Type) : Type := mkEnv {
  getopt : option (list (string * string));
  abspath_config : string;
  home_config : string;
  path_exists : string -> bool;
  yaml_load : string -> option (gmap string V)
}.
Arguments mkEnv {V}.
Arguments getopt {V}.
Arguments abspath_config {V}.
Arguments home_config {V}.
Arguments path_exists {V}.
Arguments yaml_load {V}.

Definition is_verbose (o : string) : bool :=
  bool_decide (o = "-v"%string) || bool_decide (o = "--verbose"%string).
Definition is_help (o : string) : bool :=
  bool_decide (o = "-h"%string) || bool_decide (o = "--help"%string).
Definition is_config (o : string) : bool :=
  bool_decide (o = "-c"%string) || bool_decide (o = "--config"%string).

(** [for o, a in opts]: the values of [config_file] and [verbose] after
    the loop. *)
Fixpoint parse_opts (opts : list (string * string))
         (config_file : option string) (verbose : bool)
  : result (option string * bool) :=
  match opts with
  | [] => Go (config_file, verbose)
  | (o, a) :: rest =>
      if is_verbose o then parse_opts rest config_file true
      else if is_help o then Halt (SystemExit None)
      else if is_config o then parse_opts rest (Some a) verbose
      else Halt (AssertionError "unhandled option")
  end.

(** [for f in possible_files: if path.exists(f): ... break], with [None]
    for the [else] branch of the loop. *)
Fixpoint find_config (exists_ : string -> bool) (possible_files : list string)
  : option string :=
  match possible_files with
  | [] => None
  | f :: rest => if exists_ f then Some f else find_config exists_ rest
  end.

(** [main()]: what it prints on stderr, and the client section it goes on
    with or how it stops. *)
Definition main {V} (env : Env V) : list string * result V :=
  match getopt env with
  | None => ([], Halt (NameError "err"))
  | Some opts =>
      match parse_opts opts None false with
      | Halt h => ([], Halt h)
      | Go (config_file, verbose) =>
          let found :=
            match config_file with
            | Some f => Some f
            | None => find_config (path_exists env)
                                  [abspath_config env; home_config env]
            end in
          match found with
          | None => (["cannot find config file"%string], Halt (SystemExit (Some 2)))
          | Some f =>
              match yaml_load env f with
              | None => ([], Halt IOError)
              | Some config =>
                  match config !! "client"%string with
                  | None => (["cannot find client config"%string],
                             Halt (SystemExit (Some 1)))
                  | Some client => ([], Go client)
                  end
              end
          end
      end
  end.

End Main.

(** ** A tunnel stack to run the reactor on *)
Module Sim.

(** Modelled from the spec: tunnel.py, record.py and the backend are not
    among the sources.  The stack hands out stream ids from a counter
    ("a monotonically increasing stream-id allocator"), turns every
    request into a packet queued for the record layer, flushes [sim_mtu]
    queued packets per [continue_sending], reports its handle as writable
    while packets are queued, and yields the inbound packets in order,
    ending with the connection-closed condition once the backend has
    reported end-of-stream.  The flag values are those of the spec's wire
    format (DAT=1, FIN=2, RST=4). *)
Record t : Type := mk {
  sim_fd : Z;
  sim_next_id : Z;
  sim_queue : list (Z * Z * bytes);
  sim_mtu : nat;
  sim_sent : list (Z * Z * bytes);
  sim_inbound : list (Z * Z * bytes);
  sim_eof : bool;
  sim_record_closed : bool;
  sim_backend_closed : bool
}.

Definition flags : StatusControl := mkStatusControl 1 2 4.

Definition enqueue (p : Z * Z * bytes) (u : t) : t :=
  mk (sim_fd u) (sim_next_id u) (sim_queue u ++ [p]) (sim_mtu u) (sim_sent u)
     (sim_inbound u) (sim_eof u) (sim_record_closed u) (sim_backend_closed u).

Definition flush (u : t) : t :=
  mk (sim_fd u) (sim_next_id u) (drop (sim_mtu u) (sim_queue u)) (sim_mtu u)
     (sim_sent u ++ take (sim_mtu u) (sim_queue u))
     (sim_inbound u) (sim_eof u) (sim_record_closed u) (sim_backend_closed u).

Definition set_inbound (l : list (Z * Z * bytes)) (u : t) : t :=
  mk (sim_fd u) (sim_next_id u) (sim_queue u) (sim_mtu u) (sim_sent u)
     l (sim_eof u) (sim_record_closed u) (sim_backend_closed u).

Definition new_connection : M t Z :=
  fun u => (Ok (sim_next_id u),
            mk (sim_fd u) (sim_next_id u + 1) (sim_queue u) (sim_mtu u)
               (sim_sent u) (sim_inbound u) (sim_eof u)
               (sim_record_closed u) (sim_backend_closed u)).

Fixpoint yield_all (l : list (Z * Z * bytes)) (u : t) : Gen t :=
  match l with
  | [] => if sim_eof u then GRaise ConnectionClosedException (set_inbound [] u)
          else GStop (set_inbound [] u)
  | p :: rest => GYield p (set_inbound rest u) (yield_all rest u)
  end.

Definition wlist (u : t) : list Z :=
  match sim_queue u with
  | [] => []
  | _ :: _ => [sim_fd u]
  end.

#[global] Instance upstream : Upstream t := {|
  status := flags;
  tunnel_available := fun u => negb (sim_record_closed u);
  tunnel_get_rlist := fun u => [sim_fd u];
  tunnel_get_wlist := wlist;
  tunnel_new_connection := new_connection;
  tunnel_send_packet := fun id data => modify (enqueue (id, dat flags, data));
  tunnel_close_connection := fun id => modify (enqueue (id, fin flags, []));
  tunnel_reset_connection := fun id => modify (enqueue (id, rst flags, []));
  tunnel_continue_sending := modify flush;
  tunnel_receive_packets := fun u => yield_all (sim_inbound u) u;
  record_close := modify (fun u =>
    mk (sim_fd u) (sim_next_id u) (sim_queue u) (sim_mtu u) (sim_sent u)
       (sim_inbound u) (sim_eof u) true (sim_backend_closed u));
  record_get_wlist := wlist;
  record_continue_sending := modify flush;
  backend_close := modify (fun u =>
    mk (sim_fd u) (sim_next_id u) (sim_queue u) (sim_mtu u) (sim_sent u)
       (sim_inbound u) (sim_eof u) (sim_record_closed u) true);
  wait_writable := fun _ => ret tt
|}.

(** Sockets, objects and a client with two open streams, 7 and 9. *)
Definition socket (fd : Z) (room : nat) (inbox : bytes) (eof : bool)
           (err : option Z) : Socket :=
  mkSocket fd false false None err room [] inbox eof.

Definition stack (inbound : list (Z * Z * bytes)) (eof : bool)
           (queue : list (Z * Z * bytes)) : t :=
  mk 3 10 queue 1 [] inbound eof false false.

Definition client_of (s7 : Socket) (u : t) : TunnelClient t :=
  mkTunnelClient
    (<[0%nat := mkConnection (socket 4 0 [] false None) (-1) []]>
     (<[1%nat := mkConnection s7 7 [x78; x79; x7a]]>
      (<[2%nat := mkConnection (socket 6 8 [] true None) 9 []]> ∅)))
    0%nat [] u (<[7 := 1%nat]> (<[9 := 2%nat]> ∅)) true [].

Definition client (u : t) : TunnelClient t :=
  client_of (socket 5 2 [x61; x62] false None) u.

End Sim.

(** * The vocabulary of the properties *)

Definition would_block (e : exn) : bool :=
  match e with
  | socket_error en => en =? errno.EWOULDBLOCK
  | _ => false
  end.

(** The socket, and the wrapper, after [close()] or, with [reset] set,
    after [reset()]. *)
Definition closed_socket (reset : bool) (s : Socket) : Socket :=
  Sock.set_closed
    (Sock.set_blocking true
       (if reset then Sock.set_linger (1, 0) s else s)).

Definition closed_object (reset : bool) (c : Connection) : Connection :=
  mkConnection (closed_socket reset (conn c)) (conn_id c) (send_buf c).

(** The call [_process_sending] makes to flush an entity: the tunnel's
    [continue_sending()], a connection's [send()] without data. *)
Definition flush_event (e : Entity) : Event :=
  match e with
  | TheTunnel => ev_tunnel_continue
  | Obj r => ev_conn r (m_send None)
  end.

(** Whether a call is the flush of [e]; how many of the calls [evs] are. *)
Definition is_flush (e : Entity) (ev : Event) : bool :=
  match e, ev with
  | TheTunnel, ev_tunnel_continue => true
  | Obj r, ev_conn r' (m_send None) => bool_decide (r = r')
  | _, _ => false
  end.

Definition flushes (e : Entity) (evs : list Event) : nat :=
  length (List.filter (is_flush e) evs).

Definition not_a_flush (ev : Event) : Prop := forall e, is_flush e ev = false.

(** The call [conn.close()] on the object [r]. *)
Definition close_event (r : ref) : Event := ev_conn r m_close.


(** The calls that close a local connection. *)
Definition closing (ev : Event) : bool :=
  match ev with
  | ev_conn _ m_close | ev_conn _ m_reset => true
  | _ => false
  end.

(** Those that close the object [r]. *)
Definition is_close (r : ref) (ev : Event) : bool :=
  match ev with
  | ev_conn r' m_close | ev_conn r' m_reset => bool_decide (r = r')
  | _ => false
  end.

(** How often the object [r] was closed among the calls [evs]. *)
Definition closes (r : ref) (evs : list Event) : nat :=
  length (List.filter (is_close r) evs).

(** An exception some handler of the reactor catches. *)
Definition caught (e : exn) : bool :=
  match e with
  | ConnectionClosedException => true
  | socket_error en => en =? errno.ECONNRESET
  | _ => false
  end.

(** An outcome after which the pass can still return normally. *)
Definition recoverable {A} (res0 : res A) : bool :=
  match res0 with
  | Ok _ => true
  | Raise e => caught e
  end.

(** A method that neither opens nor closes the socket. *)
Definition keeps {A} (m : M Connection A) : Prop :=
  forall c res c', m c = (res, c') -> sock_closed (conn c') = sock_closed (conn c).

Section Vocabulary.
Context {U : Type} `{!Upstream U}.
Implicit Types (st : TunnelClient U) (r : ref) (c : Connection) (T : list ref)
  (P : Event -> Prop).

(** [emits P m]: whatever [m] does, and however it ends, the log grows
    at its end only, by events that satisfy [P]. *)
Definition emits P {A} (m : M (TunnelClient U) A) : Prop :=
  forall st res st', m st = (res, st') ->
    exists evs, log st' = log st ++ evs /\ Forall P evs.


(** The object [r] is on the heap with its socket open, or closed. *)
Definition openb st r : bool :=
  match objs st !! r with
  | Some c => negb (sock_closed (conn c))
  | None => false
  end.

Definition deadb st r : bool :=
  match objs st !! r with
  | Some c => sock_closed (conn c)
  | None => false
  end.

(** The atomic changes of state of a pass in which no connection is
    accepted, each with the calls it logs. *)
Inductive step : list Event -> TunnelClient U -> TunnelClient U -> Prop :=
  | s_log st ev :
      closing ev = false -> ev <> ev_backend_close ->
      step [ev] st (set_log (log st ++ [ev]) st)
  | s_obj st r c c' :
      objs st !! r = Some c ->
      sock_closed (conn c') = sock_closed (conn c) ->
      step [] st (set_objs (<[r := c']> (objs st)) st)
  | s_upstream st u : step [] st (set_upstream u st)
  | s_stop st : step [] st (set_running false st)
  | s_close st k r c (reset : bool) :
      conns st !! k = Some r ->
      objs st !! r = Some c ->
      sock_closed (conn c) = false ->
      step [ev_conn r (if reset then m_reset else m_close)] st
        (set_conns (delete k (conns st))
           (set_objs (<[r := closed_object reset c]> (objs st))
              (set_log
                 (log st ++ [ev_conn r (if reset then m_reset else m_close)])
                 st))).

(** Sequences of atomic steps, with the calls they log in order. *)
Inductive steps : list Event -> TunnelClient U -> TunnelClient U -> Prop :=
  | steps_nil st : steps [] st st
  | steps_cons l1 l2 st st1 st2 :
      step l1 st st1 -> steps l2 st1 st2 -> steps (l1 ++ l2) st st2.

(** [good T evs st]: no connection waits to be accepted, the table maps
    distinct ids to distinct objects, the listening object is open and not
    one of the streams [T]; each stream of [T] is either still in the
    table, open and not closed by any of the calls [evs], or out of the
    table, closed, and closed by exactly one of them; and the backend has
    not been closed. *)
Definition good T (evs : list Event) st : Prop :=
  backlog st = []
  /\ NoDup (itervalues st)
  /\ (local_conn st ∉ T)
  /\ openb st (local_conn st) = true
  /\ closes (local_conn st) evs = 0%nat
  /\ (ev_backend_close ∉ evs)
  /\ (forall r, r ∈ itervalues st -> r ∈ T)
  /\ (forall r, r ∈ T ->
        (r ∈ itervalues st /\ openb st r = true /\ closes r evs = 0%nat)
        \/ ((r ∉ itervalues st) /\ deadb st r = true /\ closes r evs = 1%nat)).

(** [stepping m]: with nothing to accept, every run of [m] that returns,
    or that raises what a handler catches, is a sequence of atomic steps. *)
Definition stepping {A} (m : M (TunnelClient U) A) : Prop :=
  forall st res st',
    backlog st = [] -> m st = (res, st') -> recoverable res = true ->
    exists l, steps l st st'.


(** The table is injective, all its connections and the listening one are
    distinct objects with open sockets. *)
Definition tidy st : bool :=
  bool_decide (NoDup (local_conn st :: itervalues st))
  && forallb (openb st) (local_conn st :: itervalues st).



End Vocabulary.





(** ** More vocabulary: sequences of sends, inbound data, the options *)

(** The kernel has [n] bytes of room in the socket's send buffer. *)
Definition with_room (n : nat) (c : Connection) : Connection :=
  mkConnection
    (mkSocket (sock_fileno (conn c)) (sock_closed (conn c))
              (sock_blocking (conn c)) (sock_linger (conn c))
              (sock_error (conn c)) n (sock_wire (conn c))
              (sock_inbox (conn c)) (sock_eof (conn c)))
    (conn_id c) (send_buf c).

(** A sequence of [send(data)] calls, the kernel's room given anew before
    each. *)
Fixpoint send_all (l : list (nat * bytes)) : M Connection unit :=
  match l with
  | [] => ret tt
  | (room, data) :: rest =>
      modify (with_room room) ;; Connection.send (Some data) ;; send_all rest
  end.

(** An open socket with no error pending. *)
Definition sound (s : Socket) : bool :=
  negb (sock_closed s) && bool_decide (sock_error s = None).

(** A flush call of some entity. *)
Definition a_flush (ev : Event) : Prop := exists e, ev = flush_event e.

(** The calls a pass of the loop may make: all but those of the
    shutdown. *)
Definition pass_call (ev : Event) : Prop :=
  match ev with
  | ev_record_close | ev_record_continue | ev_select _ | ev_backend_close => False
  | _ => True
  end.

Section MoreVocabulary.
Context {U : Type} `{!Upstream U}.
Implicit Types (st : TunnelClient U) (r : ref) (c : Connection).

(** The generator ends normally (it raises nothing, the connection-closed
    condition included), and the packets it yields carry neither RST nor
    FIN. *)
Fixpoint data_only (g : Gen U) : bool :=
  match g with
  | GYield (_, control, _) _ rest =>
      negb (has_flag control (rst status))
      && negb (has_flag control (fin status))
      && data_only rest
  | GStop _ => true
  | GRaise _ _ => false
  end.

(** The data the generator's DAT packets carry for the stream [id], in
    the order yielded. *)
Fixpoint payload (id : Z) (g : Gen U) : bytes :=
  match g with
  | GYield (i, control, data) _ rest =>
      (if bool_decide (i = id) && has_flag control (dat status) then data else [])
      ++ payload id rest
  | GStop _ => []
  | GRaise _ _ => []
  end.

(** The table is injective and all its connections are on the heap with
    sound sockets. *)
Definition calm st : bool :=
  bool_decide (NoDup (itervalues st))
  && forallb (fun r => match objs st !! r with
                       | Some c => sound (conn c)
                       | None => false
                       end) (itervalues st).

(** The same as a proposition. *)
Definition Calm st : Prop :=
  NoDup (itervalues st)
  /\ forall r, r ∈ itervalues st ->
       exists c, objs st !! r = Some c /\ sound (conn c) = true.

End MoreVocabulary.

(** The options [main] knows; the argument of the last [-c]/[--config]
    among the options, [d] when there is none. *)
Definition known_option (oa : string * string) : bool :=
  Main.is_verbose oa.1 || Main.is_help oa.1 || Main.is_config oa.1.

Definition help_option (oa : string * string) : bool := Main.is_help oa.1.

Definition config_option (oa : string * string) : bool :=
  negb (Main.is_verbose oa.1) && negb (Main.is_help oa.1) && Main.is_config oa.1.

Definition last_config (opts : list (string * string)) (d : option string)
  : option string :=
  match List.filter config_option opts with
  | [] => d
  | l => Some (List.last l (""%string, ""%string)).2
  end.

(** An environment for [main]: the options given, which of the two
    default files exist, and one loadable file, [usocks.yaml], whose only
    section is [client]. *)
Definition sample_env (opts : option (list (string * string)))
           (here home : bool) : Main.Env Z :=
  Main.mkEnv opts "/cwd/config.yaml"%string "/home/u/.usocks.yaml"%string
    (fun f => if bool_decide (f = "/cwd/config.yaml"%string) then here
              else if bool_decide (f = "/home/u/.usocks.yaml"%string) then home
              else false)
    (fun f => if bool_decide (f = "usocks.yaml"%string)
              then Some (<["client"%string := 8000]> ∅) else None).

(** * Properties *)

(** ** Running the monad *)

Lemma run_bind {S A B} (m : M S A) (k : A -> M S B) (s : S) :
  (m ≫= k) s = match m s with
               | (Ok a, s') => k a s'
               | (Raise e, s') => (Raise e, s')
               end.
Proof. reflexivity. Qed.

Lemma run_bind_ok {S A B} (m : M S A) (k : A -> M S B) s a s' :
  m s = (Ok a, s') -> (m ≫= k) s = k a s'.
Proof. intros H. rewrite run_bind, H. reflexivity. Qed.

Lemma run_bind_raise {S A B} (m : M S A) (k : A -> M S B) s e s' :
  m s = (Raise e, s') -> (m ≫= k) s = (Raise e, s').
Proof. intros H. rewrite run_bind, H. reflexivity. Qed.

Lemma run_modify {S} (f : S -> S) (s : S) : modify f s = (Ok tt, f s).
Proof. reflexivity. Qed.

Lemma run_gets {S A} (f : S -> A) (s : S) : gets f s = (Ok (f s), s).
Proof. reflexivity. Qed.

Lemma truthy_false (b : bytes) : truthy b = false <-> b = [].
Proof. destruct b; simpl; split; congruence. Qed.

Lemma truthy_true (b : bytes) : truthy b = true <-> b <> [].
Proof. destruct b; simpl; split; congruence. Qed.

(** ** The socket *)

Lemma sock_send_open buf s :
  sock_closed s = false ->
  Sock.send buf s =
    match sock_error s with
    | Some e => (Raise (socket_error e), s)
    | None =>
        match sock_room s with
        | O => (Raise (socket_error errno.EWOULDBLOCK), s)
        | _ => (Ok (Nat.min (length buf) (sock_room s)),
                Sock.accept_bytes (Nat.min (length buf) (sock_room s)) buf s)
        end
    end.
Proof. intros H. unfold Sock.send, Sock.live. rewrite H. reflexivity. Qed.

Lemma sock_send_closed buf s :
  sock_closed s = true -> Sock.send buf s = (Raise (socket_error errno.EBADF), s).
Proof. intros H. unfold Sock.send, Sock.live. rewrite H. reflexivity. Qed.

(** Whatever a [send] on the socket does, the bytes on the wire grow by a
    prefix of the buffer, and by nothing when the call raises. *)
Lemma sock_send_wire buf s r s' :
  Sock.send buf s = (r, s') ->
  match r with
  | Ok n => sock_wire s' = sock_wire s ++ take n buf
  | Raise _ => s' = s
  end.
Proof.
  unfold Sock.send, Sock.live.
  destruct (sock_closed s); [intros [= <- <-]; reflexivity|].
  destruct (sock_error s); [intros [= <- <-]; reflexivity|].
  destruct (sock_room s); intros [= <- <-]; reflexivity.
Qed.

Lemma sock_recv_bound n s d s' :
  Sock.recv n s = (Ok d, s') -> (length d <= n)%nat.
Proof.
  unfold Sock.recv, Sock.live.
  destruct (sock_closed s); [discriminate|].
  destruct (sock_error s); [discriminate|].
  destruct (sock_inbox s) as [|b l] eqn:E.
  - destruct (sock_eof s); intros [= <- <-]; simpl; lia.
  - intros [= <- <-]. rewrite length_take. lia.
Qed.

(** ** C9: [Connection.get_wlist] *)



(** An idle wrapper registers nothing, whatever the state of its socket. *)
Lemma get_wlist_idle (c : Connection) :
  send_buf c = [] -> Connection.get_wlist c = (Ok None, c).
Proof.
  intros H. unfold Connection.get_wlist. rewrite run_bind. simpl.
  rewrite H. reflexivity.
Qed.


(** ** C8: [Connection.send] *)

Lemma send_append (data : bytes) (c : Connection) :
  when (truthy_opt (Some data))
       (modify (fun c => Connection.set_send_buf (send_buf c ++ default [] (Some data)) c)) c
  = (Ok tt, Connection.set_send_buf (send_buf c ++ data) c).
Proof.
  destruct data as [|b l]; simpl; [|reflexivity].
  unfold ret, Connection.set_send_buf. rewrite app_nil_r. destruct c; reflexivity.
Qed.

(** What [send] does once the data is in the buffer. *)
Lemma send_flush (d : option bytes) (c : Connection) :
  truthy_opt d = false ->
  Connection.send d c =
    match send_buf c with
    | [] => (Ok tt, c)
    | _ :: _ =>
        match Sock.send (send_buf c) (conn c) with
        | (Ok n, s') => (Ok tt, mkConnection s' (conn_id c) (drop n (send_buf c)))
        | (Raise e, s') =>
            if would_block e then (Ok tt, mkConnection s' (conn_id c) (send_buf c))
            else (Raise e, mkConnection s' (conn_id c) (send_buf c))
        end
    end.
Proof.
  intros Hd. unfold Connection.send. rewrite Hd. simpl.
  rewrite run_bind. simpl. rewrite run_bind. simpl.
  destruct (send_buf c) as [|b l] eqn:Hb; simpl; [reflexivity|].
  rewrite run_bind. unfold try_except, Connection.on_conn.
  destruct (Sock.send (b :: l) (conn c)) as [[n|e] s'] eqn:Hs.
  - destruct n; simpl; unfold ret, modify, Connection.set_send_buf; simpl;
      rewrite ?Hb; reflexivity.
  - destruct e as [k|en|en| | |]; simpl; unfold raise, ret; rewrite ?Hb;
      try reflexivity.
    destruct (en =? errno.EWOULDBLOCK); reflexivity.
Qed.

Lemma send_data (data : bytes) (c : Connection) :
  Connection.send (Some data) c =
    Connection.send None (Connection.set_send_buf (send_buf c ++ data) c).
Proof.
  unfold Connection.send at 1. rewrite run_bind, send_append.
  unfold Connection.send. simpl. reflexivity.
Qed.

(** C8. [send(data)] first appends [data] to the outbound buffer and then
    tries the socket once with the whole buffer: the [n] bytes the socket
    takes go on the wire and leave the front of the buffer, the rest stays
    in order; a would-block is zero bytes taken and no error, any other
    socket error is raised with the buffer kept; with nothing to send the
    socket is not called.  In every case the bytes on the wire followed by
    the buffer are what they were, followed by [data]. *)
Theorem send_keeps_remainder (c : Connection) (data : bytes) r c' :
  Connection.send (Some data) c = (r, c') ->
  let buf := send_buf c ++ data in
  (buf = [] -> r = Ok tt /\ c' = c)
  /\ (buf <> [] ->
      match Sock.send buf (conn c) with
      | (Ok n, s') =>
          r = Ok tt /\ c' = mkConnection s' (conn_id c) (drop n buf)
          /\ sock_wire s' = sock_wire (conn c) ++ take n buf
      | (Raise e, s') =>
          c' = mkConnection s' (conn_id c) buf /\ s' = conn c
          /\ r = (if would_block e then Ok tt else Raise e)
      end)
  /\ sock_wire (conn c') ++ send_buf c' = sock_wire (conn c) ++ buf.
Proof.
  intros Hrun buf. rewrite send_data, send_flush in Hrun by reflexivity.
  simpl in Hrun. fold buf in Hrun.
  destruct buf as [|b l] eqn:Hbuf.
  - injection Hrun as <- <-. split; [|split].
    + intros _. split; [reflexivity|].
      unfold Connection.set_send_buf. destruct c as [s i sb]. simpl in *.
      apply app_eq_nil in Hbuf as [-> _]. reflexivity.
    + congruence.
    + reflexivity.
  - split; [congruence|].
    destruct (Sock.send (b :: l) (conn c)) as [[n|e] s'] eqn:Hs;
      pose proof (sock_send_wire _ _ _ _ Hs) as Hw; simpl in Hw.
    + injection Hrun as <- <-. split.
      * intros _. auto.
      * simpl. rewrite Hw, <- app_assoc.
        change (take n (b :: l) ++ drop n (b :: l)) with
          (take n (b :: l) ++ drop n (b :: l)).
        rewrite take_drop. reflexivity.
    + subst s'. destruct (would_block e); injection Hrun as <- <-;
        (split; [intros _; auto | reflexivity]).
Qed.

Lemma send_keeps_remainder_witness :
  let c := mkConnection (Sim.socket 5 2 [] false None) 7 [x78; x79; x7a] in
  let c' := mkConnection
              (mkSocket 5 false false None None 0 [x78; x79] [] false)
              7 [x7a; x21] in
  Connection.send (Some [x21]) c = (Ok tt, c')
  /\ sock_wire (conn c') ++ send_buf c' = [] ++ [x78; x79; x7a] ++ [x21].
Proof.
  intros c c'.
  split; [reflexivity|].
  apply (send_keeps_remainder c [x21] (Ok tt) c'). reflexivity.
Defined.

(** A socket with no room is the would-block case: nothing is lost. *)
Example send_would_block :
  Connection.send (Some [x21])
    (mkConnection (Sim.socket 5 0 [] false None) 7 [x78]) =
  (Ok tt, mkConnection (Sim.socket 5 0 [] false None) 7 [x78; x21]).
Proof. reflexivity. Qed.

(** ** C10: [FrontendServer.recv] *)

(** C10. When the read does not raise, [recv] returns [None] exactly when
    the socket read returned the empty string, and otherwise the bytes
    read, which are non-empty and at most 4096; it never returns the empty
    string. *)
Theorem frontend_recv_none_iff_empty (f : FrontendServer.t) r f' :
  FrontendServer.recv f = (Ok r, f') ->
  exists data s',
    Sock.recv 4096 (FrontendServer.conn f) = (Ok data, s')
    /\ f' = FrontendServer.mk s' (FrontendServer.send_buf f)
    /\ (r = None <-> data = [])
    /\ (forall d, r = Some d -> d = data /\ d <> [] /\ (length d <= 4096)%nat)
    /\ r <> Some [].
Proof.
  unfold FrontendServer.recv, FrontendServer.on_conn. rewrite run_bind.
  destruct (Sock.recv 4096 (FrontendServer.conn f)) as [[data|e] s'] eqn:Hs;
    [|discriminate].
  pose proof (sock_recv_bound _ _ _ _ Hs) as Hlen.
  intros [= <- <-]. exists data, s'.
  destruct data as [|b l]; repeat split; try congruence;
    intros d [= <-]; solve [reflexivity | exact Hlen].
Qed.

Lemma frontend_recv_none_iff_empty_witness :
  exists data s',
    Sock.recv 4096 (Sim.socket 8 1 [x68; x69] false None) = (Ok data, s')
    /\ FrontendServer.mk (Sock.consume 4096 (Sim.socket 8 1 [x68; x69] false None)) [] =
       FrontendServer.mk s' []
    /\ (Some [x68; x69] = None <-> data = [])
    /\ (forall d, Some [x68; x69] = Some d ->
                  d = data /\ d <> [] /\ (length d <= 4096)%nat)
    /\ Some [x68; x69] <> Some [].
Proof.
  apply (frontend_recv_none_iff_empty
           (FrontendServer.mk (Sim.socket 8 1 [x68; x69] false None) [])).
  reflexivity.
Defined.

(** The peer's close shows as [None]. *)
Example frontend_recv_eof :
  fst (FrontendServer.recv (FrontendServer.mk (Sim.socket 8 1 [] true None) []))
  = Ok None.
Proof. reflexivity. Qed.

(** ** The reactor *)

Section ReactorFacts.
Context {U : Type} `{!Upstream U}.
Implicit Types (st : TunnelClient U) (r : ref) (c : Connection).

Lemma run_emit e st : emit e st = (Ok tt, set_log (log st ++ [e]) st).
Proof. reflexivity. Qed.

Lemma run_on_obj {A} r (m : M Connection A) st c :
  objs st !! r = Some c ->
  on_obj r m st = (fst (m c), set_objs (<[r := snd (m c)]> (objs st)) st).
Proof. intros H. unfold on_obj. rewrite H. destruct (m c); reflexivity. Qed.

Lemma run_call {A} r meth (m : M Connection A) st :
  call r meth m st = on_obj r m (set_log (log st ++ [ev_conn r meth]) st).
Proof. reflexivity. Qed.

Lemma run_upcall {A} e (m : M U A) st :
  upcall e m st =
    (fst (m (upstream st)),
     set_upstream (snd (m (upstream st))) (set_log (log st ++ [e]) st)).
Proof.
  unfold upcall. rewrite run_bind, run_emit. unfold on_upstream. simpl.
  destruct (m (upstream st)); reflexivity.
Qed.

Lemma run_in_conns k st :
  in_conns k st = (Ok (bool_decide (is_Some (conns st !! k))), st).
Proof. reflexivity. Qed.

Lemma run_del_conns k st r :
  conns st !! k = Some r ->
  del_conns k st = (Ok tt, set_conns (delete k (conns st)) st).
Proof.
  intros H. unfold del_conns. rewrite run_bind. simpl.
  rewrite run_bind. unfold subscript. rewrite H. reflexivity.
Qed.

(** [_close_connection] on an id that is not in the dictionary raises
    [KeyError] and changes nothing. *)
Lemma close_connection_missing k reset st :
  conns st !! k = None ->
  _close_connection k reset st = (Raise (KeyError k), st).
Proof.
  intros H. unfold _close_connection. rewrite run_bind.
  destruct reset; rewrite run_bind; simpl; rewrite run_bind;
    unfold subscript; rewrite H; reflexivity.
Qed.

Lemma run_Connection_close c :
  sock_closed (conn c) = false ->
  Connection.close c = (Ok tt, closed_object false c).
Proof.
  intros H. unfold Connection.close, Connection.on_conn.
  rewrite run_bind. unfold Sock.setblocking, Sock.live. rewrite H. reflexivity.
Qed.

Lemma run_Connection_reset c :
  sock_closed (conn c) = false ->
  Connection.reset c = (Ok tt, closed_object true c).
Proof.
  intros H. unfold Connection.reset, Connection.on_conn.
  rewrite run_bind. unfold Sock.setsockopt_linger, Sock.live. rewrite H.
  simpl. rewrite run_Connection_close by exact H. reflexivity.
Qed.

(** [_close_connection] on a registered, open connection: one call on
    the object, then the entry goes. *)
Lemma close_connection_registered k reset st r c :
  conns st !! k = Some r ->
  objs st !! r = Some c ->
  sock_closed (conn c) = false ->
  _close_connection k reset st =
    (Ok tt,
     set_conns (delete k (conns st))
       (set_objs (<[r := closed_object reset c]> (objs st))
          (set_log (log st ++ [ev_conn r (if reset then m_reset else m_close)]) st))).
Proof.
  intros Hk Hr Hopen. unfold _close_connection. rewrite run_bind.
  destruct reset; rewrite run_bind; simpl; rewrite run_bind;
    unfold subscript; rewrite Hk; simpl; rewrite run_call;
    erewrite run_on_obj by exact Hr.
  - rewrite run_Connection_reset by exact Hopen. simpl.
    erewrite run_del_conns by exact Hk. reflexivity.
  - rewrite run_Connection_close by exact Hopen. simpl.
    erewrite run_del_conns by exact Hk. reflexivity.
Qed.

(** ** C6: packets for unknown streams *)

(** C6. A packet whose stream id is not in the connection table is
    handled without any effect: the handler returns normally and the
    whole state (table, every connection object and its buffer, tunnel
    state, calls made) is what it was; the loop goes on with the packets
    that follow. *)
Theorem unknown_stream_ignored st (id control : Z) (data : bytes) :
  conns st !! id = None ->
  handle_packet (id, control, data) st = (Ok tt, st)
  /\ forall u rest,
      receive_loop (GYield (id, control, data) u rest) st =
      receive_loop rest (set_upstream u st).
Proof.
  intros Hid.
  assert (Hh : forall st', conns st' !! id = None ->
               handle_packet (id, control, data) st' = (Ok tt, st')).
  { intros st' H'. unfold handle_packet. rewrite run_bind, run_in_conns, H'.
    reflexivity. }
  split; [apply Hh, Hid|].
  intros u rest. cbn [receive_loop].
  rewrite run_bind, run_modify, run_bind, Hh by exact Hid. reflexivity.
Qed.

End ReactorFacts.

Lemma unknown_stream_ignored_witness :
  let st := Sim.client (Sim.stack [] false []) in
  handle_packet (8, 7, [x41]) st = (Ok tt, st)
  /\ forall u rest,
      receive_loop (GYield (8, 7, [x41]) u rest) st =
      receive_loop rest (set_upstream u st).
Proof.
  intros st. apply (unknown_stream_ignored st 8 7 [x41]). reflexivity.
Defined.

Lemma send_on_closed (d : option bytes) (c : Connection) res c' :
  sock_closed (conn c) = true ->
  Connection.send d c = (res, c') ->
  conn c' = conn c.
Proof.
  intros Hc.
  assert (Hnone : forall c0 res0 c0', sock_closed (conn c0) = true ->
            Connection.send None c0 = (res0, c0') -> conn c0' = conn c0).
  { intros c0 res0 c0' H0. rewrite send_flush by reflexivity.
    destruct (send_buf c0); [intros [= <- <-]; reflexivity|].
    rewrite sock_send_closed by exact H0. simpl. intros [= <- <-]. reflexivity. }
  destruct d as [data|]; [|apply Hnone, Hc].
  rewrite send_data. intros H. apply Hnone in H; [exact H | exact Hc].
Qed.

Section Packets.
Context {U : Type} `{!Upstream U}.
Implicit Types (st : TunnelClient U) (r : ref) (c : Connection).

Lemma run_call_obj {A} r meth (m : M Connection A) st c :
  objs st !! r = Some c ->
  call r meth m st =
    (fst (m c),
     set_objs (<[r := snd (m c)]> (objs st))
              (set_log (log st ++ [ev_conn r meth]) st)).
Proof. intros H. rewrite run_call. erewrite run_on_obj by exact H. reflexivity. Qed.

Lemma handle_packet_known st (id control : Z) (data : bytes) r :
  conns st !! id = Some r ->
  handle_packet (id, control, data) st =
    (when (has_flag control (rst status)) (_close_connection id true) ;;
     when (has_flag control (dat status))
          (call r (m_send (Some data)) (Connection.send (Some data))) ;;
     when (has_flag control (fin status)) (_close_connection id false)) st.
Proof.
  intros H. unfold handle_packet.
  rewrite run_bind, run_in_conns, H, bool_decide_eq_true_2 by eauto.
  cbn [negb]. rewrite run_bind, run_gets, run_bind. unfold subscript.
  rewrite H. reflexivity.
Qed.

(** ** C2: a packet with RST *)

(** C2. A packet carrying RST for a registered stream whose socket is
    open makes [reset()] the first call the reactor issues: SO_LINGER is
    set to (1, 0) and the socket closed, and the entry leaves the table.
    Whatever else the packet carries, and whether or not the handler then
    raises, the socket stays in that state, no byte is added to what it
    had put on the wire (the buffered bytes are not delivered) and the
    only further call is the [send] of a DAT flag, on the closed socket. *)
Theorem rst_aborts_and_removes st (id control : Z) (data : bytes) r c res st' :
  conns st !! id = Some r ->
  objs st !! r = Some c ->
  sock_closed (conn c) = false ->
  has_flag control (rst status) = true ->
  handle_packet (id, control, data) st = (res, st') ->
  conns st' = delete id (conns st)
  /\ (exists c', objs st' !! r = Some c'
                 /\ conn c' = closed_socket true (conn c)
                 /\ sock_wire (conn c') = sock_wire (conn c)
                 /\ sock_linger (conn c') = Some (1, 0)
                 /\ sock_closed (conn c') = true)
  /\ log st' = log st ++ ev_conn r m_reset ::
                 (if has_flag control (dat status)
                  then [ev_conn r (m_send (Some data))] else []).
Proof.
  intros Hid Hr Hopen Hrst. rewrite (handle_packet_known _ _ _ _ _ Hid).
  rewrite run_bind, Hrst. cbn [when].
  rewrite (close_connection_registered _ _ _ _ _ Hid Hr Hopen).
  set (st1 := set_conns _ _).
  assert (Hgone : conns st1 !! id = None) by apply lookup_delete_eq.
  assert (Hobj : objs st1 !! r = Some (closed_object true c))
    by apply lookup_insert_eq.
  rewrite run_bind.
  destruct (has_flag control (dat status)); cbn [when].
  - rewrite (run_call_obj _ _ _ _ _ Hobj).
    destruct (Connection.send (Some data) (closed_object true c))
      as [sres c2] eqn:Hsend.
    apply send_on_closed in Hsend as Hconn; [|reflexivity].
    cbn [fst snd].
    set (st2 := set_objs _ _).
    assert (Hgone2 : conns st2 !! id = None) by exact Hgone.
    assert (Hfinal : forall res0 st0,
               (when (has_flag control (fin status)) (_close_connection id false)) st2
               = (res0, st0) -> st0 = st2).
    { intros res0 st0. destruct (has_flag control (fin status)); cbn [when].
      - rewrite close_connection_missing by exact Hgone2. congruence.
      - intros [= _ <-]. reflexivity. }
    destruct sres as [[]|e].
    + intros H. apply Hfinal in H as ->. split; [reflexivity|]. split.
      * exists c2. split; [apply lookup_insert_eq|]. rewrite Hconn.
        repeat split; reflexivity.
      * simpl. rewrite <- app_assoc. reflexivity.
    + intros [= <- <-]. split; [reflexivity|]. split.
      * exists c2. split; [apply lookup_insert_eq|]. rewrite Hconn.
        repeat split; reflexivity.
      * simpl. rewrite <- app_assoc. reflexivity.
  - unfold ret at 1.
    destruct (has_flag control (fin status)); cbn [when].
    + rewrite close_connection_missing by exact Hgone. intros [= <- <-].
      split; [reflexivity|]. split; [|reflexivity].
      exists (closed_object true c). repeat split; try reflexivity. exact Hobj.
    + intros [= <- <-].
      split; [reflexivity|]. split; [|reflexivity].
      exists (closed_object true c). repeat split; try reflexivity. exact Hobj.
Qed.

End Packets.

Lemma rst_aborts_and_removes_witness :
  let st := Sim.client (Sim.stack [] false []) in
  let c := mkConnection (Sim.socket 5 2 [x61; x62] false None) 7 [x78; x79; x7a] in
  let out := handle_packet (7, 4, []) st in
  conns (snd out) = delete 7 (conns st)
  /\ (exists c', objs (snd out) !! 1%nat = Some c'
                 /\ conn c' = closed_socket true (conn c)
                 /\ sock_wire (conn c') = sock_wire (conn c)
                 /\ sock_linger (conn c') = Some (1, 0)
                 /\ sock_closed (conn c') = true)
  /\ log (snd out) = log st ++ ev_conn 1 m_reset :: [].
Proof.
  intros st c out.
  exact (rst_aborts_and_removes st 7 4 [] 1%nat c (fst out) (snd out)
           eq_refl eq_refl eq_refl eq_refl (surjective_pairing out)).
Defined.

Section LocalRead.
Context {U : Type} `{!Upstream U}.
Implicit Types (st : TunnelClient U) (r : ref) (c : Connection).

Lemma set_objs_same st r c :
  objs st !! r = Some c -> set_objs (<[r := c]> (objs st)) st = st.
Proof. intros H. rewrite insert_id by exact H. destruct st; reflexivity. Qed.

Lemma run_on_obj_same {A} r (m : M Connection A) st c x :
  objs st !! r = Some c -> m c = (x, c) -> on_obj r m st = (x, st).
Proof.
  intros H Hm. erewrite run_on_obj by exact H. rewrite Hm. simpl.
  rewrite set_objs_same by exact H. reflexivity.
Qed.


(** ** C5: a read that fails with ECONNRESET *)


End LocalRead.



(** ** C1: removal of a table entry, once *)

(** C1 fails for a packet that carries both RST and FIN. [reset()] is
    called and the entry deleted; the FIN branch then runs
    [_close_connection] for the same id, whose [self.conns[conn_id]]
    raises [KeyError]: a second removal is attempted. The exception is not
    the one [_process_tunnel] catches, so it leaves the reactor. *)
Theorem rst_fin_packet_removes_twice :
  let st := Sim.client (Sim.stack [(7, 6, [])] false []) in
  exists st',
    _process_tunnel st = (Raise (KeyError 7), st')
    /\ conns st' !! 7 = None
    /\ log st' = [ev_receive_packets; ev_conn 1 m_reset]
    /\ running st' = true.
Proof. eexists. split; [vm_compute; reflexivity|]. repeat split. Qed.

(** With it the whole of [run] stops: stream 9 is left open and the
    backend is never closed. *)
Example rst_fin_packet_stops_run :
  let st := Sim.client (Sim.stack [(7, 6, [])] false []) in
  let out := run [mkTick (Ok ([3], [])) {[3 := TheTunnel]} ∅ false] 4 st in
  fst out = Raise (KeyError 7)
  /\ log (snd out) = [ev_receive_packets; ev_conn 1 m_reset]
  /\ (conn <$> objs (snd out) !! 2%nat) = Some (Sim.socket 6 8 [] true None).
Proof. vm_compute. repeat split. Qed.

(** ** What a piece of the reactor adds to the log *)

Section Emits.
Context {U : Type} `{!Upstream U}.
Implicit Types (st : TunnelClient U) (r : ref) (P : Event -> Prop).

Lemma emits_silent P {A} (m : M (TunnelClient U) A) :
  (forall st res st', m st = (res, st') -> log st' = log st) -> emits P m.
Proof.
  intros H st res st' Hm. exists []. rewrite app_nil_r. split; [eauto | constructor].
Qed.

Lemma emits_ret P {A} (a : A) : emits P (ret a : M (TunnelClient U) A).
Proof. apply emits_silent. intros st res st' [= _ <-]. reflexivity. Qed.

Lemma emits_raise P {A} e : emits P (raise e : M (TunnelClient U) A).
Proof. apply emits_silent. intros st res st' [= _ <-]. reflexivity. Qed.

Lemma emits_gets P {A} (f : TunnelClient U -> A) : emits P (gets f).
Proof. apply emits_silent. intros st res st' [= _ <-]. reflexivity. Qed.

Lemma emits_modify P (f : TunnelClient U -> TunnelClient U) :
  (forall st, log (f st) = log st) -> emits P (modify f).
Proof. intros Hf. apply emits_silent. intros st res st' [= _ <-]. apply Hf. Qed.

Lemma emits_bind P {A B} (m : M (TunnelClient U) A) (k : A -> M (TunnelClient U) B) :
  emits P m -> (forall a, emits P (k a)) -> emits P (m ≫= k).
Proof.
  intros Hm Hk st res st'. rewrite run_bind.
  destruct (m st) as [[a|e] st1] eqn:E; apply Hm in E as (evs1 & Hl1 & HP1).
  - intros Hka. apply Hk in Hka as (evs2 & Hl2 & HP2).
    exists (evs1 ++ evs2). rewrite Hl2, Hl1, app_assoc. split; [reflexivity|].
    apply Forall_app; auto.
  - intros [= <- <-]. eauto.
Qed.

Lemma emits_try P {A} (m : M (TunnelClient U) A) (h : exn -> M (TunnelClient U) A) :
  emits P m -> (forall e, emits P (h e)) -> emits P (try_except m h).
Proof.
  intros Hm Hh st res st'. unfold try_except.
  destruct (m st) as [[a|e] st1] eqn:E; apply Hm in E as (evs1 & Hl1 & HP1).
  - intros [= <- <-]. eauto.
  - intros Hhe. apply Hh in Hhe as (evs2 & Hl2 & HP2).
    exists (evs1 ++ evs2). rewrite Hl2, Hl1, app_assoc. split; [reflexivity|].
    apply Forall_app; auto.
Qed.

Lemma emits_when P (b : bool) (m : M (TunnelClient U) unit) :
  emits P m -> emits P (when b m).
Proof. intros Hm. destruct b; [exact Hm | apply emits_ret]. Qed.

Lemma emits_emit P ev : P ev -> emits (U := U) P (emit ev).
Proof.
  intros HP st res st' [= _ <-]. exists [ev]. split; [reflexivity|].
  constructor; [exact HP | constructor].
Qed.

Lemma emits_on_obj P {A} r (m : M Connection A) : emits (U := U) P (on_obj r m).
Proof.
  apply emits_silent. intros st res st'. unfold on_obj.
  destruct (objs st !! r) as [c|]; [|intros [= _ <-]; reflexivity].
  destruct (m c). intros [= _ <-]. reflexivity.
Qed.

Lemma emits_on_upstream P {A} (m : M U A) : emits P (on_upstream m).
Proof.
  apply emits_silent. intros st res st'. unfold on_upstream.
  destruct (m (upstream st)). intros [= _ <-]. reflexivity.
Qed.

Lemma emits_call P {A} r meth (m : M Connection A) :
  P (ev_conn r meth) -> emits (U := U) P (call r meth m).
Proof.
  intros HP. apply emits_bind; [apply emits_emit, HP | intros; apply emits_on_obj].
Qed.

Lemma emits_upcall P {A} ev (m : M U A) : P ev -> emits P (upcall ev m).
Proof.
  intros HP. apply emits_bind; [apply emits_emit, HP | intros; apply emits_on_upstream].
Qed.

Lemma emits_subscript P {V} (d : gmap Z V) k : emits (U := U) P (subscript d k).
Proof. unfold subscript. destruct (d !! k); [apply emits_ret | apply emits_raise]. Qed.

Lemma emits_del_conns P k : emits (U := U) P (del_conns k).
Proof.
  apply emits_bind; [apply emits_gets|]. intros c.
  apply emits_bind; [apply emits_subscript|]. intros _.
  apply emits_modify. reflexivity.
Qed.

Lemma emits_close_connection P k (reset : bool) :
  (forall r, P (ev_conn r (if reset then m_reset else m_close))) ->
  emits (U := U) P (_close_connection k reset).
Proof.
  intros HP. apply emits_bind; [|intros; apply emits_del_conns].
  destruct reset;
    (apply emits_bind; [apply emits_gets|]; intros c;
     apply emits_bind; [apply emits_subscript|]; intros r;
     apply emits_call, HP).
Qed.

Lemma emits_handle_packet P p :
  (forall r, P (ev_conn r m_reset)) ->
  (forall r, P (ev_conn r m_close)) ->
  (forall r d, P (ev_conn r (m_send (Some d)))) ->
  emits P (handle_packet p).
Proof.
  intros Hreset Hclose Hsend. destruct p as [[id control] data].
  unfold handle_packet.
  apply emits_bind; [apply emits_gets|]. intros known.
  destruct (negb known); [apply emits_ret|].
  apply emits_bind; [apply emits_gets|]. intros c.
  apply emits_bind; [apply emits_subscript|]. intros r.
  apply emits_bind; [apply emits_when, emits_close_connection, Hreset|]. intros _.
  apply emits_bind; [apply emits_when, emits_call, Hsend|]. intros _.
  apply emits_when, emits_close_connection, Hclose.
Qed.

Lemma emits_receive_loop P g :
  (forall r, P (ev_conn r m_reset)) ->
  (forall r, P (ev_conn r m_close)) ->
  (forall r d, P (ev_conn r (m_send (Some d)))) ->
  emits P (receive_loop g).
Proof.
  intros Hreset Hclose Hsend. induction g as [p u rest IH|u|e u]; cbn [receive_loop].
  - apply emits_bind; [apply emits_modify; reflexivity|]. intros _.
    apply emits_bind; [apply emits_handle_packet; assumption|]. intros _.
    exact IH.
  - apply emits_modify. reflexivity.
  - apply emits_bind; [apply emits_modify; reflexivity|]. intros _.
    apply emits_raise.
Qed.

Lemma emits_process_tunnel P :
  P ev_receive_packets ->
  (forall r, P (ev_conn r m_reset)) ->
  (forall r, P (ev_conn r m_close)) ->
  (forall r d, P (ev_conn r (m_send (Some d)))) ->
  emits P _process_tunnel.
Proof.
  intros Hrecv Hreset Hclose Hsend. apply emits_try.
  - apply emits_bind; [apply emits_emit, Hrecv|]. intros _.
    apply emits_bind; [apply emits_gets|]. intros g.
    apply emits_receive_loop; assumption.
  - intros []; try apply emits_raise. apply emits_modify. reflexivity.
Qed.

Lemma emits_process_listening P :
  (forall r, P (ev_conn r m_accept)) ->
  P ev_new_connection ->
  emits P _process_listening.
Proof.
  intros Hacc Hnew. unfold _process_listening.
  apply emits_bind.
  { unfold accept. apply emits_bind; [apply emits_gets|]. intros lc.
    apply emits_bind; [apply emits_call, Hacc|]. intros _.
    apply emits_bind; [apply emits_gets|]. intros [|s rest];
      [apply emits_raise|].
    apply emits_bind; [apply emits_modify; reflexivity|]. intros _.
    apply emits_ret. }
  intros s. apply emits_bind; [apply emits_upcall, Hnew|]. intros id.
  apply emits_bind.
  { unfold new_Connection. destruct (Connection.init s id) as [[c|e] ?];
      [|apply emits_raise].
    apply emits_bind; [apply emits_gets|]. intros o.
    apply emits_bind; [apply emits_modify; reflexivity|]. intros _.
    apply emits_ret. }
  intros r. apply emits_modify. reflexivity.
Qed.

Lemma emits_process_connection P r :
  P (ev_conn r m_recv) ->
  (forall r', P (ev_conn r' m_close)) ->
  (forall id, P (ev_reset_connection id)) ->
  (forall id, P (ev_close_connection id)) ->
  (forall id d, P (ev_send_packet id d)) ->
  emits P (_process_connection r).
Proof.
  intros Hrecv Hclose Hrst Hfin Hdat. unfold _process_connection.
  apply emits_bind; [apply emits_on_obj|]. intros id.
  apply emits_bind.
  { apply emits_try.
    - apply emits_bind; [apply emits_call, Hrecv|]. intros d. apply emits_ret.
    - intros [k|en|en| | |]; try apply emits_raise.
      destruct (en =? errno.ECONNRESET); [|apply emits_raise].
      apply emits_bind; [apply emits_upcall, Hrst|]. intros _.
      apply emits_bind; [apply emits_close_connection, Hclose|]. intros _.
      apply emits_ret. }
  intros [data|]; [|apply emits_ret].
  destruct (negb (truthy data)).
  - apply emits_bind; [apply emits_upcall, Hfin|]. intros _.
    apply emits_close_connection, Hclose.
  - apply emits_upcall, Hdat.
Qed.

End Emits.

(** ** C7: one flush per entity and pass *)

Lemma is_flush_flush_event (e' e : Entity) :
  is_flush e' (flush_event e) = bool_decide (e' = e).
Proof.
  destruct e' as [|r'], e as [|r]; simpl; try reflexivity.
  destruct (decide (r' = r)) as [->|Hne].
  - rewrite !bool_decide_eq_true_2; reflexivity.
  - rewrite !bool_decide_eq_false_2; congruence.
Qed.

Lemma flushes_app e l1 l2 : flushes e (l1 ++ l2) = (flushes e l1 + flushes e l2)%nat.
Proof. unfold flushes. rewrite List.filter_app, length_app. reflexivity. Qed.

Lemma flushes_none e evs : Forall not_a_flush evs -> flushes e evs = 0%nat.
Proof.
  induction 1 as [|ev evs Hev _ IH]; [reflexivity|].
  unfold flushes in *. simpl. rewrite (Hev e). exact IH.
Qed.

Lemma flushes_single e' e :
  flushes e' [flush_event e] = if bool_decide (e' = e) then 1%nat else 0%nat.
Proof.
  unfold flushes. simpl. rewrite is_flush_flush_event.
  destruct (bool_decide (e' = e)); reflexivity.
Qed.

Section Flushing.
Context {U : Type} `{!Upstream U}.
Implicit Types (st : TunnelClient U) (r : ref).

Lemma dispatch_no_flush e : emits not_a_flush (dispatch e).
Proof.
  destruct e as [|r]; cbn [dispatch].
  - apply emits_process_tunnel; intros; intros []; reflexivity.
  - apply emits_bind; [apply emits_gets|]. intros lc.
    destruct (bool_decide (r = lc)).
    + apply emits_process_listening; intros; intros []; reflexivity.
    + apply emits_bind; [apply emits_on_obj|]. intros id.
      apply emits_bind; [apply emits_gets|]. intros [|]; [|apply emits_ret].
      apply emits_process_connection; intros; intros []; reflexivity.
Qed.

Lemma read_loop_no_flush rd rlist : emits not_a_flush (read_loop rd rlist).
Proof.
  induction rlist as [|fd rest IH]; cbn [read_loop]; [apply emits_ret|].
  apply emits_bind; [apply emits_subscript|]. intros e.
  apply emits_bind; [apply dispatch_no_flush|]. intros _. exact IH.
Qed.

Lemma on_obj_log {A} r (m : M Connection A) st res st' :
  on_obj r m st = (res, st') -> log st' = log st.
Proof.
  unfold on_obj. destruct (objs st !! r) as [c|]; [|intros [= _ <-]; reflexivity].
  destruct (m c). intros [= _ <-]. reflexivity.
Qed.

(** [_process_sending] makes the flush call of its entity, or none. *)
Lemma process_sending_log e st res st' :
  _process_sending e st = (res, st') ->
  log st' = log st \/ log st' = log st ++ [flush_event e].
Proof.
  destruct e as [|r]; cbn [_process_sending].
  - rewrite run_upcall. intros [= _ <-]. right. reflexivity.
  - rewrite run_bind.
    destruct (on_obj r (gets conn_id) st) as [[id|ex] st1] eqn:H1;
      apply on_obj_log in H1; [|intros [= _ <-]; left; exact H1].
    rewrite run_bind, run_in_conns.
    destruct (bool_decide (is_Some (conns st1 !! id))).
    + rewrite run_call. intros H2. apply on_obj_log in H2.
      right. rewrite H2. cbn. rewrite H1. reflexivity.
    + intros [= _ <-]. left. exact H1.
Qed.

Lemma write_loop_flushes wd wlist : forall written st res st',
  write_loop wd wlist written st = (res, st') ->
  exists evs, log st' = log st ++ evs
              /\ (forall e, e ∈ written -> flushes e evs = 0%nat)
              /\ (forall e, (flushes e evs <= 1)%nat).
Proof.
  induction wlist as [|fd rest IH]; intros written st res st'; cbn [write_loop].
  - intros [= _ <-]. exists []. rewrite app_nil_r. repeat split; auto.
  - rewrite run_bind. unfold subscript at 1.
    destruct (wd !! fd) as [e|].
    2:{ intros [= _ <-]. exists []. rewrite app_nil_r. repeat split; auto. }
    cbn. unfold ObjectSet.contains. destruct (decide (e ∈ written)) as [Hin|Hout].
    + rewrite bool_decide_eq_true_2 by exact Hin. apply IH.
    + rewrite bool_decide_eq_false_2 by exact Hout. rewrite run_bind.
      destruct (_process_sending e st) as [[[]|ex] st1] eqn:Hs;
        apply process_sending_log in Hs.
      * intros Hrest. apply IH in Hrest as (evs2 & Hl2 & Hw2 & Hle2).
        assert (He2 : flushes e evs2 = 0%nat)
          by (apply Hw2; unfold ObjectSet.add; constructor).
        destruct Hs as [Hs|Hs]; rewrite Hs in Hl2.
        -- exists evs2. split; [exact Hl2|]. split; [|exact Hle2].
           intros e' He'. apply Hw2. unfold ObjectSet.add. constructor. exact He'.
        -- exists (flush_event e :: evs2). rewrite <- app_assoc in Hl2.
           split; [exact Hl2|].
           assert (Hc : forall e', flushes e' (flush_event e :: evs2)
                        = ((if bool_decide (e' = e) then 1 else 0) + flushes e' evs2)%nat).
           { intros e'. change (flush_event e :: evs2) with ([flush_event e] ++ evs2).
             rewrite flushes_app, flushes_single. reflexivity. }
           split; intros e'.
           ++ intros He'. rewrite Hc, bool_decide_eq_false_2 by congruence.
              apply Hw2. unfold ObjectSet.add. constructor. exact He'.
           ++ rewrite Hc. destruct (decide (e' = e)) as [->|Hne].
              ** rewrite bool_decide_eq_true_2, He2 by reflexivity. lia.
              ** rewrite bool_decide_eq_false_2 by exact Hne. apply Hle2.
      * intros [= <- <-]. destruct Hs as [Hs|Hs].
        -- exists []. rewrite app_nil_r. repeat split; auto.
        -- exists [flush_event e]. split; [exact Hs|].
           split; intros e'; rewrite flushes_single.
           ++ intros He'. rewrite bool_decide_eq_false_2 by congruence. reflexivity.
           ++ destruct (bool_decide (e' = e)); lia.
Qed.

(** C7. In one pass of [_process], whatever the select call reported
    and however the pass ends, every entity (the tunnel, any connection
    object) is flushed at most once: the pass adds at most one
    [continue_sending()] of the tunnel and, for each connection, at most
    one [send()] without data to the calls made, even when several ready
    descriptors of the writable list belong to the same entity. *)
Theorem flushed_at_most_once (t : Tick) st res st' :
  _process t st = (res, st') ->
  exists evs, log st' = log st ++ evs
              /\ forall e, (flushes e evs <= 1)%nat.
Proof.
  unfold _process.
  assert (Hnil : forall e, (flushes e [] <= 1)%nat) by (intros; unfold flushes; simpl; lia).
  destruct (select_result t) as [[rlist wlist]|ex].
  - rewrite run_bind.
    destruct (read_loop (rdict t) rlist st) as [[[]|ex] st1] eqn:Hread;
      apply read_loop_no_flush in Hread as (evs1 & Hl1 & Hno1).
    + intros Hw. apply write_loop_flushes in Hw as (evs2 & Hl2 & _ & Hle2).
      exists (evs1 ++ evs2). rewrite Hl2, Hl1, app_assoc. split; [reflexivity|].
      intros e. rewrite flushes_app, (flushes_none e evs1 Hno1). apply Hle2.
    + intros [= <- <-]. exists evs1. split; [exact Hl1|].
      intros e. rewrite (flushes_none e evs1 Hno1). lia.
  - destruct ex as [k|en|en| | |];
      try (intros [= _ <-]; exists []; rewrite app_nil_r; split; auto).
    destruct (en =? errno.EINTR); intros [= _ <-]; exists [];
      rewrite app_nil_r; split; auto.
Qed.

End Flushing.

(** The tunnel under two ready descriptors, and stream 7 under two. *)
Lemma flushed_at_most_once_witness :
  let st := Sim.client (Sim.stack [] false [(7, 1, [x41])]) in
  let t := mkTick (Ok ([], [3; 5; 13; 15]))
                  ∅ (<[3 := TheTunnel]> (<[13 := TheTunnel]>
                       (<[5 := Obj 1]> (<[15 := Obj 1]> ∅)))) false in
  exists evs, log (snd (_process t st)) = log st ++ evs
              /\ forall e, (flushes e evs <= 1)%nat.
Proof.
  intros st t.
  exact (flushed_at_most_once t st (fst (_process t st)) (snd (_process t st))
           (surjective_pairing _)).
Defined.

Example flushed_once_each :
  let st := Sim.client (Sim.stack [] false [(7, 1, [x41])]) in
  let t := mkTick (Ok ([], [3; 5; 13; 15]))
                  ∅ (<[3 := TheTunnel]> (<[13 := TheTunnel]>
                       (<[5 := Obj 1]> (<[15 := Obj 1]> ∅)))) false in
  log (snd (_process t st)) = [ev_tunnel_continue; ev_conn 1 (m_send None)].
Proof. vm_compute. reflexivity. Qed.

(** ** C4: the order of the shutdown *)

Section Shutdown.
Context {U : Type} `{!Upstream U}.
Implicit Types (st : TunnelClient U) (r : ref).

Lemma call_frame {A} r meth (m : M Connection A) st res st' :
  call r meth m st = (res, st') ->
  log st' = log st ++ [ev_conn r meth]
  /\ conns st' = conns st /\ upstream st' = upstream st
  /\ local_conn st' = local_conn st /\ backlog st' = backlog st
  /\ running st' = running st.
Proof.
  rewrite run_call. unfold on_obj. cbn.
  destruct (objs st !! r) as [c|]; [destruct (m c)|]; intros [= _ <-];
    repeat split; reflexivity.
Qed.







End Shutdown.

(** ** The reactor as a sequence of atomic steps *)

Lemma closes_app r l1 l2 : closes r (l1 ++ l2) = (closes r l1 + closes r l2)%nat.
Proof. unfold closes. rewrite List.filter_app, length_app. reflexivity. Qed.

Lemma closes_other r ev : closing ev = false -> closes r [ev] = 0%nat.
Proof.
  unfold closes. destruct ev as [r' [d| | | |]| | | | | | | | | |];
    simpl; intros H; try reflexivity; discriminate.
Qed.

Lemma closes_close r r' (reset : bool) :
  closes r [ev_conn r' (if reset then m_reset else m_close)] =
  if bool_decide (r = r') then 1%nat else 0%nat.
Proof.
  unfold closes. destruct reset; simpl; destruct (bool_decide (r = r')); reflexivity.
Qed.


Section Steps.
Context {U : Type} `{!Upstream U}.
Implicit Types (st : TunnelClient U) (r : ref) (c : Connection).

Lemma steps_one l st st' : step l st st' -> steps l st st'.
Proof.
  intros H. rewrite <- (app_nil_r l). eapply steps_cons; [exact H | constructor].
Qed.

Lemma steps_trans l1 l2 st st1 st2 :
  steps l1 st st1 -> steps l2 st1 st2 -> steps (l1 ++ l2) st st2.
Proof.
  induction 1 as [|la lb sa sb sc Hs _ IH]; intros H2; [exact H2|].
  rewrite <- app_assoc. eapply steps_cons; [exact Hs | exact (IH H2)].
Qed.

Lemma step_frame l st st' :
  step l st st' ->
  log st' = log st ++ l /\ backlog st' = backlog st
  /\ local_conn st' = local_conn st
  /\ (running st = false -> running st' = false).
Proof.
  destruct 1; cbn; rewrite ?app_nil_r; repeat split; auto.
Qed.

Lemma steps_frame l st st' :
  steps l st st' ->
  log st' = log st ++ l /\ backlog st' = backlog st
  /\ local_conn st' = local_conn st
  /\ (running st = false -> running st' = false).
Proof.
  induction 1 as [|l1 l2 sa sb sc Hs _ IH].
  - rewrite app_nil_r. repeat split; auto.
  - apply step_frame in Hs as (Hl & Hb & Hc & Hr).
    destruct IH as (Hl' & Hb' & Hc' & Hr').
    rewrite Hl', Hl, Hb', Hb, Hc', Hc, app_assoc. repeat split; auto.
Qed.

End Steps.

(** ** The table invariant *)

Section Invariant.
Context {U : Type} `{!Upstream U}.
Implicit Types (st : TunnelClient U) (r : ref) (c : Connection) (T : list ref).

Lemma itervalues_delete st k r :
  conns st !! k = Some r ->
  itervalues st ≡ₚ r :: itervalues (set_conns (delete k (conns st)) st).
Proof.
  intros H. unfold itervalues. cbn.
  rewrite <- (map_to_list_delete (conns st) k r H). reflexivity.
Qed.

Lemma elem_of_itervalues st r :
  r ∈ itervalues st <-> exists k, conns st !! k = Some r.
Proof.
  unfold itervalues. rewrite list_elem_of_fmap. split.
  - intros ([k r'] & -> & Hin). exists k. apply elem_of_map_to_list in Hin. exact Hin.
  - intros [k Hk]. exists (k, r). split; [reflexivity|].
    apply elem_of_map_to_list. exact Hk.
Qed.

Lemma good_ext T evs st st' :
  backlog st' = backlog st ->
  itervalues st' = itervalues st ->
  local_conn st' = local_conn st ->
  (forall r, openb st' r = openb st r) ->
  (forall r, deadb st' r = deadb st r) ->
  good T evs st -> good T evs st'.
Proof.
  intros Hb Hi Hl Ho Hd (H1 & H2 & H3 & H4 & H5 & H6 & H7 & H8).
  unfold good. rewrite Hb, Hi, Hl, Ho.
  repeat split; try assumption.
  intros r Hr. rewrite Ho, Hd. exact (H8 r Hr).
Qed.

Lemma good_log T evs st ev :
  closing ev = false -> ev <> ev_backend_close ->
  good T evs st -> good T (evs ++ [ev]) st.
Proof.
  intros Hcl Hne (Hb & Hnd & Hlc & Hlo & Hlcl & Hnb & Hsub & Hall).
  repeat split; try assumption.
  - rewrite closes_app, closes_other, Hlcl by exact Hcl. reflexivity.
  - intros Hin. apply elem_of_app in Hin as [Hin|Hin]; [exact (Hnb Hin)|].
    apply list_elem_of_singleton in Hin. exact (Hne (eq_sym Hin)).
  - intros r Hr. destruct (Hall r Hr) as [(H1 & H2 & H3)|(H1 & H2 & H3)].
    + left. rewrite closes_app, closes_other, H3 by exact Hcl. auto.
    + right. rewrite closes_app, closes_other, H3 by exact Hcl. auto.
Qed.

Lemma good_step T evs l st st' :
  good T evs st -> step l st st' -> good T (evs ++ l) st'.
Proof.
  intros Hg Hstep.
  destruct Hstep as [st ev Hcl Hne | st r c c' Hr Hsame | st u | st
                    | st k r c reset Hk Hr Hopen].
  - (* a call that closes nothing *)
    apply (good_ext T _ st); try reflexivity. apply good_log; assumption.
  - (* a method that leaves the socket open or closed as it was *)
    rewrite app_nil_r. apply (good_ext T _ st); try reflexivity; [| |exact Hg].
    + intros r0. unfold openb. cbn. destruct (decide (r0 = r)) as [->|Hne].
      * rewrite lookup_insert_eq, Hr, Hsame. reflexivity.
      * rewrite lookup_insert_ne by congruence. reflexivity.
    + intros r0. unfold deadb. cbn. destruct (decide (r0 = r)) as [->|Hne].
      * rewrite lookup_insert_eq, Hr, Hsame. reflexivity.
      * rewrite lookup_insert_ne by congruence. reflexivity.
  - rewrite app_nil_r. apply (good_ext T _ st); try reflexivity. exact Hg.
  - rewrite app_nil_r. apply (good_ext T _ st); try reflexivity. exact Hg.
  - (* [_close_connection] *)
    destruct Hg as (Hb & Hnd & Hlc & Hlo & Hlcl & Hnb & Hsub & Hall).
    set (ev := ev_conn r (if reset then m_reset else m_close)).
    set (st' := set_conns _ _).
    assert (Hperm : itervalues st ≡ₚ r :: itervalues st').
    { apply (itervalues_delete st k r Hk). }
    assert (Hnd' : NoDup (r :: itervalues st')) by (rewrite <- Hperm; exact Hnd).
    apply NoDup_cons in Hnd' as [Hrout Hnd'].
    assert (Hmem : forall r0, r0 ∈ itervalues st <-> r0 = r \/ r0 ∈ itervalues st').
    { intros r0. rewrite Hperm. apply elem_of_cons. }
    assert (HrT : r ∈ T) by (apply Hsub, Hmem; left; reflexivity).
    assert (Hrlc : local_conn st <> r) by (intros <-; exact (Hlc HrT)).
    assert (Ho : forall r0, r0 <> r -> openb st' r0 = openb st r0).
    { intros r0 Hne. unfold openb. cbn. rewrite lookup_insert_ne by congruence.
      reflexivity. }
    assert (Hd : forall r0, r0 <> r -> deadb st' r0 = deadb st r0).
    { intros r0 Hne. unfold deadb. cbn. rewrite lookup_insert_ne by congruence.
      reflexivity. }
    assert (Hcount : forall r0, closes r0 (evs ++ [ev]) =
              (closes r0 evs + if bool_decide (r0 = r) then 1 else 0)%nat).
    { intros r0. rewrite closes_app. unfold ev. rewrite closes_close. reflexivity. }
    assert (Hl' : local_conn st' = local_conn st) by reflexivity.
    unfold good. rewrite Hl'.
    split; [exact Hb|]. split; [exact Hnd'|]. split; [exact Hlc|].
    split; [rewrite Ho by exact Hrlc; exact Hlo|].
    split.
    { rewrite Hcount, bool_decide_eq_false_2 by exact Hrlc. lia. }
    split.
    { intros Hin. apply elem_of_app in Hin as [Hin|Hin]; [exact (Hnb Hin)|].
      apply list_elem_of_singleton in Hin. unfold ev in Hin. destruct reset; discriminate. }
    split.
    { intros r0 Hr0. apply Hsub, Hmem. right. exact Hr0. }
    intros r0 Hr0. destruct (decide (r0 = r)) as [->|Hne].
    + right. split; [exact Hrout|]. split.
      * unfold deadb. cbn. rewrite lookup_insert_eq. reflexivity.
      * rewrite Hcount, bool_decide_eq_true_2 by reflexivity.
        destruct (Hall r HrT) as [(_ & _ & H3)|(H1 & _)]; [lia|].
        exfalso. apply H1, Hmem. left. reflexivity.
    + rewrite Hcount, bool_decide_eq_false_2, Ho, Hd by exact Hne.
      destruct (Hall r0 Hr0) as [(H1 & H2 & H3)|(H1 & H2 & H3)].
      * left. split; [|split; [exact H2 | lia]].
        apply Hmem in H1 as [H1|H1]; [contradiction | exact H1].
      * right. split; [|split; [exact H2 | lia]].
        intros Hin. apply H1, Hmem. right. exact Hin.
Qed.

Lemma good_steps T l st st' :
  steps l st st' -> forall evs, good T evs st -> good T (evs ++ l) st'.
Proof.
  induction 1 as [|l1 l2 sa sb sc Hs _ IH]; intros evs Hg.
  - rewrite app_nil_r. exact Hg.
  - rewrite app_assoc. apply IH. exact (good_step _ _ _ _ _ Hg Hs).
Qed.

End Invariant.

(** ** A pass without accepts is a sequence of atomic steps *)

Lemma sock_send_keeps buf s res s' :
  Sock.send buf s = (res, s') -> sock_closed s' = sock_closed s.
Proof.
  unfold Sock.send, Sock.live.
  destruct (sock_closed s) eqn:Hc; [intros [= _ <-]; exact Hc|].
  destruct (sock_error s); [intros [= _ <-]; exact Hc|].
  destruct (sock_room s); intros [= _ <-]; exact Hc.
Qed.

Lemma sock_recv_keeps n s res s' :
  Sock.recv n s = (res, s') -> sock_closed s' = sock_closed s.
Proof.
  unfold Sock.recv, Sock.live.
  destruct (sock_closed s) eqn:Hc; [intros [= _ <-]; exact Hc|].
  destruct (sock_error s); [intros [= _ <-]; exact Hc|].
  destruct (sock_inbox s); [destruct (sock_eof s)|]; intros [= _ <-]; exact Hc.
Qed.

Lemma keeps_gets {A} (f : Connection -> A) : keeps (gets f).
Proof. intros c res c' [= _ <-]. reflexivity. Qed.

Lemma keeps_fileno : keeps Connection.fileno.
Proof.
  intros c res c'. unfold Connection.fileno, Connection.on_conn, Sock.fileno, Sock.live.
  destruct (sock_closed (conn c)) eqn:Hc; intros [= _ <-]; exact Hc.
Qed.

Lemma keeps_recv n : keeps (Connection.recv n).
Proof.
  intros c res c'. unfold Connection.recv, Connection.on_conn.
  destruct (Sock.recv n (conn c)) as [x s'] eqn:E. intros [= _ <-].
  exact (sock_recv_keeps _ _ _ _ E).
Qed.

Lemma keeps_send d : keeps (Connection.send d).
Proof.
  assert (Hnone : keeps (Connection.send None)).
  { intros c res c'. rewrite send_flush by reflexivity.
    destruct (send_buf c); [intros [= _ <-]; reflexivity|].
    destruct (Sock.send _ (conn c)) as [[n|e] s'] eqn:E;
      apply sock_send_keeps in E; [intros [= _ <-]; exact E|].
    destruct (would_block e); intros [= _ <-]; exact E. }
  destruct d as [data|]; [|exact Hnone].
  intros c res c'. rewrite send_data. intros H. apply Hnone in H. exact H.
Qed.

Section Stepping.
Context {U : Type} `{!Upstream U}.
Implicit Types (st : TunnelClient U) (r : ref) (c : Connection).

Lemma stepping_ret {A} (a : A) : stepping (ret a : M (TunnelClient U) A).
Proof. intros st res st' _ [= _ <-] _. exists []. constructor. Qed.

Lemma stepping_raise {A} e : stepping (raise e : M (TunnelClient U) A).
Proof. intros st res st' _ [= _ <-] _. exists []. constructor. Qed.

Lemma stepping_gets {A} (f : TunnelClient U -> A) : stepping (gets f).
Proof. intros st res st' _ [= _ <-] _. exists []. constructor. Qed.

Lemma stepping_bind {A B} (m : M (TunnelClient U) A) (k : A -> M (TunnelClient U) B) :
  stepping m -> (forall a, stepping (k a)) -> stepping (m ≫= k).
Proof.
  intros Hm Hk st res st' Hb. rewrite run_bind.
  destruct (m st) as [[a|e] st1] eqn:E.
  - destruct (Hm _ _ _ Hb E eq_refl) as [l1 H1]. intros Hka Hrec.
    apply steps_frame in H1 as Hf. destruct Hf as (_ & Hb1 & _).
    rewrite Hb in Hb1.
    destruct (Hk a _ _ _ Hb1 Hka Hrec) as [l2 H2].
    exists (l1 ++ l2). exact (steps_trans _ _ _ _ _ H1 H2).
  - intros [= <- <-] Hrec. exact (Hm _ _ _ Hb E Hrec).
Qed.

Lemma stepping_try {A} (m : M (TunnelClient U) A) (h : exn -> M (TunnelClient U) A) :
  stepping m ->
  (forall e, caught e = true -> stepping (h e)) ->
  (forall e, caught e = false -> h e = raise e) ->
  stepping (try_except m h).
Proof.
  intros Hm Hh Hre st res st' Hb. unfold try_except.
  destruct (m st) as [[a|e] st1] eqn:E.
  - intros [= <- <-] _. exact (Hm _ _ _ Hb E eq_refl).
  - destruct (caught e) eqn:Hc.
    + destruct (Hm _ _ _ Hb E Hc) as [l1 H1]. intros Hhe Hrec.
      apply steps_frame in H1 as Hf. destruct Hf as (_ & Hb1 & _).
      rewrite Hb in Hb1.
      destruct (Hh e Hc _ _ _ Hb1 Hhe Hrec) as [l2 H2].
      exists (l1 ++ l2). exact (steps_trans _ _ _ _ _ H1 H2).
    + rewrite (Hre e Hc). intros [= <- <-] Hrec. simpl in Hrec. congruence.
Qed.

Lemma stepping_when (b : bool) (m : M (TunnelClient U) unit) :
  stepping m -> stepping (when b m).
Proof. intros Hm. destruct b; [exact Hm | apply stepping_ret]. Qed.

Lemma stepping_emit ev :
  closing ev = false -> ev <> ev_backend_close -> stepping (U := U) (emit ev).
Proof.
  intros Hc Hne st res st' _ [= _ <-] _. exists [ev].
  apply steps_one, s_log; assumption.
Qed.

Lemma stepping_on_obj {A} r (m : M Connection A) : keeps m -> stepping (U := U) (on_obj r m).
Proof.
  intros Hk st res st' _. unfold on_obj.
  destruct (objs st !! r) as [c|] eqn:Hr; [|intros [= _ <-] _; exists []; constructor].
  destruct (m c) as [x c'] eqn:E. intros [= _ <-] _. exists [].
  apply steps_one, (s_obj st r c c' Hr). exact (Hk _ _ _ E).
Qed.

Lemma stepping_call {A} r meth (m : M Connection A) :
  closing (ev_conn r meth) = false -> keeps m -> stepping (U := U) (call r meth m).
Proof.
  intros Hc Hk. apply stepping_bind; [apply stepping_emit; [exact Hc | discriminate]|].
  intros _. apply stepping_on_obj, Hk.
Qed.

Lemma stepping_on_upstream {A} (m : M U A) : stepping (on_upstream m).
Proof.
  intros st res st' _. unfold on_upstream. destruct (m (upstream st)) as [x u'].
  intros [= _ <-] _. exists []. apply steps_one, s_upstream.
Qed.

Lemma stepping_upcall {A} ev (m : M U A) :
  closing ev = false -> ev <> ev_backend_close -> stepping (upcall ev m).
Proof.
  intros Hc Hne. apply stepping_bind; [apply stepping_emit; assumption|].
  intros _. apply stepping_on_upstream.
Qed.

Lemma stepping_subscript {V} (d : gmap Z V) k : stepping (U := U) (subscript d k).
Proof. unfold subscript. destruct (d !! k); [apply stepping_ret | apply stepping_raise]. Qed.

(** [_close_connection] closes an open registered connection and deletes
    its entry, or raises an exception that no handler catches. *)
Lemma close_connection_cases k (reset : bool) st res st' :
  _close_connection k reset st = (res, st') ->
  (exists r c,
      conns st !! k = Some r /\ objs st !! r = Some c
      /\ sock_closed (conn c) = false /\ res = Ok tt
      /\ st' = set_conns (delete k (conns st))
                 (set_objs (<[r := closed_object reset c]> (objs st))
                    (set_log (log st ++ [ev_conn r (if reset then m_reset else m_close)]) st)))
  \/ (exists e, res = Raise e /\ caught e = false).
Proof.
  destruct (conns st !! k) as [r|] eqn:Hk.
  2:{ rewrite close_connection_missing by exact Hk. intros [= <- <-]. right. eauto. }
  destruct (objs st !! r) as [c|] eqn:Hr.
  2:{ unfold _close_connection. rewrite run_bind.
      destruct reset; rewrite run_bind, run_gets, run_bind; unfold subscript;
        rewrite Hk; cbn [ret]; rewrite run_call; unfold on_obj; cbn [objs set_log];
        rewrite Hr; intros [= <- <-]; right; eauto. }
  destruct (sock_closed (conn c)) eqn:Hc.
  2:{ rewrite (close_connection_registered _ _ _ _ _ Hk Hr Hc). intros [= <- <-].
      left. exists r, c. repeat split; assumption. }
  unfold _close_connection. rewrite run_bind.
  destruct reset; rewrite run_bind, run_gets, run_bind; unfold subscript;
    rewrite Hk; cbn [ret]; rewrite run_call; unfold on_obj; cbn [objs set_log];
    rewrite Hr.
  - unfold Connection.reset. rewrite run_bind.
    unfold Connection.on_conn, Sock.setsockopt_linger, Sock.live. rewrite Hc.
    intros [= <- <-]. right. eauto.
  - unfold Connection.close. rewrite run_bind.
    unfold Connection.on_conn, Sock.setblocking, Sock.live. rewrite Hc.
    intros [= <- <-]. right. eauto.
Qed.

Lemma stepping_close_connection k (reset : bool) : stepping (U := U) (_close_connection k reset).
Proof.
  intros st res st' _ Hrun Hrec.
  apply close_connection_cases in Hrun
    as [(r & c & Hk & Hr & Hopen & -> & ->)|(e & -> & Hc)].
  - eexists. apply steps_one, (s_close st k r c reset Hk Hr Hopen).
  - simpl in Hrec. congruence.
Qed.

End Stepping.

Section SteppingHandlers.
Context {U : Type} `{!Upstream U}.
Implicit Types (st : TunnelClient U) (r : ref) (c : Connection).

Lemma stepping_set_upstream (u : U) :
  stepping (modify (set_upstream u) : M (TunnelClient U) unit).
Proof. intros st res st' _ [= _ <-] _. exists []. apply steps_one, s_upstream. Qed.

Lemma stepping_stop :
  stepping (modify (set_running false) : M (TunnelClient U) unit).
Proof. intros st res st' _ [= _ <-] _. exists []. apply steps_one, s_stop. Qed.

Lemma stepping_handle_packet p : stepping (handle_packet p).
Proof.
  destruct p as [[id control] data]. unfold handle_packet.
  apply stepping_bind; [apply stepping_gets|]. intros known.
  destruct (negb known); [apply stepping_ret|].
  apply stepping_bind; [apply stepping_gets|]. intros cs.
  apply stepping_bind; [apply stepping_subscript|]. intros r.
  apply stepping_bind; [apply stepping_when, stepping_close_connection|]. intros _.
  apply stepping_bind;
    [apply stepping_when, stepping_call; [reflexivity | apply keeps_send]|].
  intros _. apply stepping_when, stepping_close_connection.
Qed.

Lemma stepping_receive_loop g : stepping (receive_loop g).
Proof.
  induction g as [p u rest IH|u|e u]; cbn [receive_loop].
  - apply stepping_bind; [apply stepping_set_upstream|]. intros _.
    apply stepping_bind; [apply stepping_handle_packet|]. intros _. exact IH.
  - apply stepping_set_upstream.
  - apply stepping_bind; [apply stepping_set_upstream|]. intros _.
    apply stepping_raise.
Qed.

Lemma stepping_process_tunnel : stepping (_process_tunnel (U := U)).
Proof.
  apply stepping_try.
  - apply stepping_bind; [apply stepping_emit; [reflexivity | discriminate]|].
    intros _. apply stepping_bind; [apply stepping_gets|]. intros g.
    apply stepping_receive_loop.
  - intros [k|en|en| | |] Hc; try discriminate Hc;
      [apply stepping_raise | apply stepping_stop].
  - intros [k|en|en| | |] Hc; try reflexivity. discriminate Hc.
Qed.

(** With nothing in the listening socket's queue, [accept] raises. *)
Lemma accept_empty st :
  backlog st = [] ->
  exists e st1, accept st = (Raise e, st1) /\ caught e = false.
Proof.
  intros Hb. unfold accept. rewrite run_bind, run_gets, run_bind.
  destruct (call (local_conn st) m_accept Connection.listening st)
    as [[[]|e] st1] eqn:Hc.
  - apply call_frame in Hc as (_ & _ & _ & _ & Hb1 & _).
    rewrite run_bind, run_gets, Hb1, Hb. eauto.
  - exists e, st1. split; [reflexivity|].
    rewrite run_call in Hc. unfold on_obj in Hc. cbn [objs set_log] in Hc.
    destruct (objs st !! local_conn st) as [c|]; [|injection Hc as <- _; reflexivity].
    unfold Connection.listening, Connection.on_conn, Sock.listening, Sock.live in Hc.
    destruct (sock_closed (conn c)); [|discriminate Hc].
    injection Hc as <- _. reflexivity.
Qed.

Lemma stepping_process_listening : stepping (_process_listening (U := U)).
Proof.
  intros st res st' Hb Hrun Hrec. unfold _process_listening in Hrun.
  rewrite run_bind in Hrun.
  destruct (accept_empty st Hb) as (e & st1 & Ha & Hc). rewrite Ha in Hrun.
  injection Hrun as <- _. simpl in Hrec. congruence.
Qed.

Lemma stepping_process_connection r : stepping (_process_connection r).
Proof.
  unfold _process_connection.
  apply stepping_bind; [apply stepping_on_obj, keeps_gets|]. intros id.
  apply stepping_bind.
  { apply stepping_try.
    - apply stepping_bind; [apply stepping_call; [reflexivity | apply keeps_recv]|].
      intros d. apply stepping_ret.
    - intros [k|en|en| | |] Hc; try discriminate Hc; [|apply stepping_raise].
      simpl in Hc. rewrite Hc.
      apply stepping_bind; [apply stepping_upcall; [reflexivity | discriminate]|].
      intros _. apply stepping_bind; [apply stepping_close_connection|].
      intros _. apply stepping_ret.
    - intros [k|en|en| | |] Hc; try reflexivity.
      simpl in Hc. rewrite Hc. reflexivity. }
  intros [data|]; [|apply stepping_ret].
  destruct (negb (truthy data)).
  - apply stepping_bind; [apply stepping_upcall; [reflexivity | discriminate]|].
    intros _. apply stepping_close_connection.
  - apply stepping_upcall; [reflexivity | discriminate].
Qed.

Lemma stepping_process_sending e : stepping (_process_sending e).
Proof.
  destruct e as [|r]; cbn [_process_sending].
  - apply stepping_upcall; [reflexivity | discriminate].
  - apply stepping_bind; [apply stepping_on_obj, keeps_gets|]. intros id.
    apply stepping_bind; [apply stepping_gets|]. intros [|]; [|apply stepping_ret].
    apply stepping_call; [reflexivity | apply keeps_send].
Qed.

Lemma stepping_dispatch e : stepping (dispatch e).
Proof.
  destruct e as [|r]; cbn [dispatch]; [apply stepping_process_tunnel|].
  apply stepping_bind; [apply stepping_gets|]. intros lc.
  destruct (bool_decide (r = lc)); [apply stepping_process_listening|].
  apply stepping_bind; [apply stepping_on_obj, keeps_gets|]. intros id.
  apply stepping_bind; [apply stepping_gets|]. intros [|]; [|apply stepping_ret].
  apply stepping_process_connection.
Qed.

Lemma stepping_read_loop rd rlist : stepping (read_loop rd rlist).
Proof.
  induction rlist as [|fd rest IH]; cbn [read_loop]; [apply stepping_ret|].
  apply stepping_bind; [apply stepping_subscript|]. intros e.
  apply stepping_bind; [apply stepping_dispatch|]. intros _. exact IH.
Qed.

Lemma stepping_write_loop wd wlist : forall written, stepping (write_loop wd wlist written).
Proof.
  induction wlist as [|fd rest IH]; intros written; cbn [write_loop];
    [apply stepping_ret|].
  apply stepping_bind; [apply stepping_subscript|]. intros e.
  destruct (ObjectSet.contains e written); [apply IH|].
  apply stepping_bind; [apply stepping_process_sending|]. intros _. apply IH.
Qed.

Lemma stepping_process t : stepping (_process t).
Proof.
  unfold _process. destruct (select_result t) as [[rlist wlist]|e].
  - apply stepping_bind; [apply stepping_read_loop|]. intros _.
    apply stepping_write_loop.
  - destruct e as [k|en|en| | |]; try apply stepping_raise.
    destruct (en =? errno.EINTR); [apply stepping_ret | apply stepping_raise].
Qed.



End SteppingHandlers.

(** ** The shutdown, when nothing fails *)

Section ShutdownOk.
Context {U : Type} `{!Upstream U}.
Implicit Types (st : TunnelClient U) (r : ref) (c : Connection).





End ShutdownOk.

Section RunFacts.
Context {U : Type} `{!Upstream U}.
Implicit Types (st : TunnelClient U) (r : ref) (c : Connection).


End RunFacts.


(** Three queued packets, one flushed per round: three rounds, then the
    backend. *)
Example shutdown_three_rounds :
  let st := Sim.client (Sim.stack [] false [(7, 1, [x41]); (9, 1, [x42]); (9, 2, [])]) in
  let out := shutdown 4 st in
  fst out = Ok tt
  /\ log (snd out) =
     [close_event 0; close_event 1; close_event 2; ev_record_close;
      ev_select [3]; ev_record_continue; ev_select [3]; ev_record_continue;
      ev_select [3]; ev_record_continue; ev_backend_close]
  /\ Sim.sim_queue (upstream (snd out)) = [].
Proof. vm_compute. repeat split. Qed.

Section PassFacts.
Context {U : Type} `{!Upstream U}.
Implicit Types (st : TunnelClient U) (r : ref) (c : Connection).


Lemma run_loop_stopped ticks st :
  running st = false -> run_loop ticks st = (Ok tt, st).
Proof.
  intros H. destruct ticks; cbn [run_loop]; rewrite run_bind, run_gets, H; reflexivity.
Qed.


Lemma steps_of_ok {A} (m : M (TunnelClient U) A) st a st' :
  stepping m -> backlog st = [] -> m st = (Ok a, st') -> exists l, steps l st st'.
Proof. intros Hm Hb Hrun. exact (Hm _ _ _ Hb Hrun eq_refl). Qed.


Lemma tidy_good st :
  tidy st = true -> backlog st = [] -> good (itervalues st) [] st.
Proof.
  unfold tidy. intros Ht Hb.
  apply andb_true_iff in Ht as [Hnd Hopen]. apply bool_decide_eq_true in Hnd.
  rewrite forallb_forall in Hopen.
  apply NoDup_cons in Hnd as [Hout Hnd].
  repeat split; try assumption; try reflexivity.
  - apply Hopen. left. reflexivity.
  - intros Hin. apply elem_of_nil in Hin. exact Hin.
  - auto.
  - intros r Hr. left. repeat split; [exact Hr|].
    apply Hopen. right. apply list_elem_of_In. exact Hr.
Qed.



(** What does hold of the removals: in a pass that returns, every
    connection of the table either stays, with no close among the calls of
    the pass, or leaves it with exactly one. *)
Lemma returning_pass_removes_once t st st1 :
  tidy st = true ->
  backlog st = [] ->
  _process t st = (Ok tt, st1) ->
  exists l, log st1 = log st ++ l
    /\ forall r, r ∈ itervalues st ->
         (r ∈ itervalues st1 /\ closes r l = 0%nat)
         \/ ((r ∉ itervalues st1) /\ closes r l = 1%nat).
Proof.
  intros Ht Hb Hrun.
  destruct (steps_of_ok _ _ _ _ (stepping_process t) Hb Hrun) as [l Hsteps].
  pose proof (good_steps _ _ _ _ Hsteps [] (tidy_good st Ht Hb)) as Hg.
  cbn [app] in Hg. apply steps_frame in Hsteps as (Hlog & _).
  exists l. split; [exact Hlog|].
  destruct Hg as (_ & _ & _ & _ & _ & _ & _ & Hall).
  intros r Hr. destruct (Hall r Hr) as [(H1 & _ & H3)|(H1 & _ & H3)]; auto.
Qed.

End PassFacts.

(** ** C3: the connection-closed condition *)

Section TunnelClosed.
Context {U : Type} `{!Upstream U}.
Implicit Types (st : TunnelClient U) (r : ref) (c : Connection).





End TunnelClosed.



(** * More of the code *)

(** ** The two wrappers *)

Lemma send_none_outcome (c : Connection) res c' :
  Connection.send None c = (res, c') ->
  conn_id c' = conn_id c
  /\ sock_wire (conn c') ++ send_buf c' = sock_wire (conn c) ++ send_buf c
  /\ (sound (conn c) = true -> res = Ok tt /\ sound (conn c') = true).
Proof.
  rewrite send_flush by reflexivity.
  destruct (send_buf c) as [|b l] eqn:Hb.
  { intros [= <- <-]. rewrite Hb. repeat split; auto. }
  destruct (Sock.send (b :: l) (conn c)) as [[n|e] s'] eqn:Hs.
  - pose proof (sock_send_wire _ _ _ _ Hs) as Hw. cbn in Hw.
    pose proof (sock_send_keeps _ _ _ _ Hs) as Hk.
    intros [= <- <-]. cbn [conn conn_id send_buf].
    split; [reflexivity|]. split.
    + rewrite Hw, <- app_assoc, take_drop. reflexivity.
    + intros Hsound. split; [reflexivity|].
      unfold sound in *. apply andb_true_iff in Hsound as [Ho He].
      apply negb_true_iff in Ho. rewrite sock_send_open in Hs by exact Ho.
      apply bool_decide_eq_true in He. rewrite He in Hs.
      destruct (sock_room (conn c)); [discriminate Hs|].
      injection Hs as _ <-. cbn. rewrite Ho, He. reflexivity.
  - pose proof (sock_send_wire _ _ _ _ Hs) as Hw. cbn in Hw. subst s'.
    assert (Hsound : sound (conn c) = true -> would_block e = true).
    { unfold sound. intros H. apply andb_true_iff in H as [Ho He].
      apply negb_true_iff in Ho. rewrite sock_send_open in Hs by exact Ho.
      apply bool_decide_eq_true in He. rewrite He in Hs.
      destruct (sock_room (conn c)); [|discriminate Hs].
      injection Hs as <-. reflexivity. }
    destruct (would_block e) eqn:Hwb; intros [= <- <-]; cbn [conn conn_id send_buf];
      (split; [reflexivity|]; split; [reflexivity|]); intros H;
      [split; [reflexivity | exact H] | specialize (Hsound H); discriminate].
Qed.

Lemma send_outcome (d : option bytes) (c : Connection) res c' :
  Connection.send d c = (res, c') ->
  conn_id c' = conn_id c
  /\ sock_wire (conn c') ++ send_buf c' =
     sock_wire (conn c) ++ send_buf c ++ default [] d
  /\ (sound (conn c) = true -> res = Ok tt /\ sound (conn c') = true).
Proof.
  destruct d as [data|].
  - rewrite send_data. intros H. apply send_none_outcome in H. exact H.
  - intros H. apply send_none_outcome in H. cbn [default]. rewrite app_nil_r.
    exact H.
Qed.

(** X1. Any sequence of [send(data)] calls on a wrapper whose socket is
    open with no error pending, with whatever room the kernel has before
    each call, returns normally every time, and the bytes on the wire
    followed by the buffer are the former ones followed by all the data in
    the order of the calls: nothing is lost, duplicated or reordered. *)
Theorem sends_keep_order (l : list (nat * bytes)) : forall c : Connection,
  sound (conn c) = true ->
  exists c', send_all l c = (Ok tt, c')
             /\ sound (conn c') = true
             /\ sock_wire (conn c') ++ send_buf c' =
                sock_wire (conn c) ++ send_buf c ++ List.concat (map snd l).
Proof.
  induction l as [|[room data] rest IH]; intros c Hs; cbn [send_all].
  - exists c. cbn. rewrite !app_nil_r. auto.
  - rewrite run_bind, run_modify, run_bind.
    destruct (Connection.send (Some data) (with_room room c)) as [res c1] eqn:H1.
    apply send_outcome in H1 as (_ & Hw1 & Hok).
    destruct (Hok Hs) as [-> Hs1].
    destruct (IH c1 Hs1) as (c' & Hrun & Hs' & Hw').
    exists c'. split; [exact Hrun|]. split; [exact Hs'|].
    rewrite Hw', app_assoc, Hw1. cbn. rewrite <- !app_assoc. reflexivity.
Qed.

Lemma sends_keep_order_witness :
  let c := mkConnection (Sim.socket 5 0 [] false None) 7 [x61] in
  exists c', send_all [(0%nat, [x62; x63]); (2%nat, [x64]); (1%nat, [])] c = (Ok tt, c')
             /\ sound (conn c') = true
             /\ sock_wire (conn c') ++ send_buf c' = [] ++ [x61] ++ [x62; x63; x64].
Proof.
  intros c.
  exact (sends_keep_order [(0%nat, [x62; x63]); (2%nat, [x64]); (1%nat, [])] c eq_refl).
Defined.

(** X2. [send] on a wrapper whose socket is closed puts nothing on the
    wire: the data is appended to the buffer, and the call raises EBADF
    when there is anything buffered and returns without touching the socket
    when there is not. *)
Theorem send_on_closed_wrapper (d : option bytes) (c : Connection) res c' :
  sock_closed (conn c) = true ->
  Connection.send d c = (res, c') ->
  conn c' = conn c
  /\ send_buf c' = send_buf c ++ default [] d
  /\ res = if truthy (send_buf c ++ default [] d)
           then Raise (socket_error errno.EBADF) else Ok tt.
Proof.
  intros Hc.
  assert (Hnone : forall c0 res0 c0', sock_closed (conn c0) = true ->
            Connection.send None c0 = (res0, c0') ->
            conn c0' = conn c0 /\ send_buf c0' = send_buf c0
            /\ res0 = if truthy (send_buf c0)
                      then Raise (socket_error errno.EBADF) else Ok tt).
  { intros c0 res0 c0' H0. rewrite send_flush by reflexivity.
    destruct (send_buf c0) as [|b l] eqn:Hb.
    - intros [= <- <-]. rewrite Hb. auto.
    - rewrite sock_send_closed by exact H0. cbn. intros [= <- <-]. auto. }
  destruct d as [data|].
  - rewrite send_data. intros H. apply Hnone in H; [|exact Hc]. exact H.
  - intros H. apply Hnone in H; [|exact Hc]. cbn [default]. rewrite app_nil_r.
    exact H.
Qed.

Lemma send_on_closed_wrapper_witness :
  let c := mkConnection (mkSocket 5 true true None None 4 [] [] false) 7 [x61] in
  let out := Connection.send (Some [x62]) c in
  conn (snd out) = conn c
  /\ send_buf (snd out) = [x61] ++ [x62]
  /\ fst out = Raise (socket_error errno.EBADF).
Proof.
  intros c out.
  exact (send_on_closed_wrapper (Some [x62]) c (fst out) (snd out) eq_refl
           (surjective_pairing out)).
Defined.

(** X3. [close()] succeeds once: it leaves the socket closed, blocking
    and with SO_LINGER as it was; on the wrapper it leaves, both [close()]
    and [reset()] raise EBADF and change nothing. *)
Theorem close_then_close_raises (c : Connection) :
  sock_closed (conn c) = false ->
  exists c1, Connection.close c = (Ok tt, c1)
    /\ sock_closed (conn c1) = true
    /\ sock_blocking (conn c1) = true
    /\ sock_linger (conn c1) = sock_linger (conn c)
    /\ send_buf c1 = send_buf c
    /\ Connection.close c1 = (Raise (socket_error errno.EBADF), c1)
    /\ Connection.reset c1 = (Raise (socket_error errno.EBADF), c1).
Proof.
  intros Ho. exists (closed_object false c).
  rewrite run_Connection_close by exact Ho.
  repeat split; unfold Connection.reset, Connection.close; rewrite run_bind;
    unfold Connection.on_conn, Sock.setsockopt_linger, Sock.setblocking, Sock.live;
    reflexivity.
Qed.

Lemma close_then_close_raises_witness :
  let c := mkConnection (Sim.socket 5 2 [] false None) 7 [x61] in
  exists c1, Connection.close c = (Ok tt, c1)
    /\ sock_closed (conn c1) = true
    /\ sock_blocking (conn c1) = true
    /\ sock_linger (conn c1) = sock_linger (conn c)
    /\ send_buf c1 = send_buf c
    /\ Connection.close c1 = (Raise (socket_error errno.EBADF), c1)
    /\ Connection.reset c1 = (Raise (socket_error errno.EBADF), c1).
Proof. intros c. exact (close_then_close_raises c eq_refl). Defined.

(** X4. [FrontendServer.send] does to its socket and buffer what
    [Connection.send] does to a wrapper with the same socket and buffer,
    raises when that raises, and otherwise returns whether the buffer is
    empty afterwards; in every case the bytes on the wire followed by the
    buffer are the former ones followed by the data. *)
Theorem frontend_send_like_connection
        (d : option bytes) (s : Socket) (b : bytes) (id : Z) :
  let '(cres, c') := Connection.send d (mkConnection s id b) in
  let '(fres, f') := FrontendServer.send d (FrontendServer.mk s b) in
  FrontendServer.conn f' = conn c'
  /\ FrontendServer.send_buf f' = send_buf c'
  /\ fres = match cres with
            | Ok _ => Ok (negb (truthy (send_buf c')))
            | Raise e => Raise e
            end
  /\ sock_wire (FrontendServer.conn f') ++ FrontendServer.send_buf f' =
     sock_wire s ++ b ++ default [] d.
Proof.
  assert (Hnone : forall b0,
    let '(cres, c') := Connection.send None (mkConnection s id b0) in
    let '(fres, f') := FrontendServer._continue (FrontendServer.mk s b0) in
    FrontendServer.conn f' = conn c'
    /\ FrontendServer.send_buf f' = send_buf c'
    /\ fres = match cres with
              | Ok _ => Ok (negb (truthy (send_buf c')))
              | Raise e => Raise e
              end).
  { intros b0. rewrite send_flush by reflexivity. cbn [send_buf conn conn_id].
    unfold FrontendServer._continue. rewrite run_bind, run_gets.
    cbn [FrontendServer.send_buf]. destruct b0 as [|x l].
    { cbn [truthy when]. rewrite run_bind. cbn [ret].
      rewrite run_bind, run_gets. cbn. auto. }
    cbn [truthy when]. rewrite run_bind, run_bind.
    unfold try_except, FrontendServer.on_conn. cbn [FrontendServer.conn].
    destruct (Sock.send (x :: l) s) as [[n|e] s'].
    - destruct n; cbn; rewrite run_bind, run_gets; cbn; auto.
    - destruct e as [k|en|en| | |]; cbn; auto.
      destruct (en =? errno.EWOULDBLOCK); cbn; auto.
      rewrite run_bind, run_gets; cbn; auto. }
  destruct (Connection.send d (mkConnection s id b)) as [cres c'] eqn:Hc.
  destruct (FrontendServer.send d (FrontendServer.mk s b)) as [fres f'] eqn:Hf.
  pose proof (send_outcome _ _ _ _ Hc) as (_ & Hw & _). cbn [conn send_buf] in Hw.
  assert (H3 : FrontendServer.conn f' = conn c'
               /\ FrontendServer.send_buf f' = send_buf c'
               /\ fres = match cres with
                         | Ok _ => Ok (negb (truthy (send_buf c')))
                         | Raise e => Raise e
                         end).
  { destruct d as [data|].
    - rewrite send_data in Hc. unfold Connection.set_send_buf in Hc.
      cbn [send_buf conn conn_id] in Hc.
      specialize (Hnone (b ++ data)). rewrite Hc in Hnone.
      destruct data as [|x l].
      + rewrite app_nil_r in Hnone.
        change (FrontendServer._continue (FrontendServer.mk s b) = (fres, f')) in Hf.
        rewrite Hf in Hnone. exact Hnone.
      + change (FrontendServer._continue (FrontendServer.mk s (b ++ x :: l))
                = (fres, f')) in Hf.
        rewrite Hf in Hnone. exact Hnone.
    - specialize (Hnone b). rewrite Hc in Hnone.
      change (FrontendServer._continue (FrontendServer.mk s b) = (fres, f')) in Hf.
      rewrite Hf in Hnone. exact Hnone. }
  destruct H3 as (H1 & H2 & H3). rewrite H1, H2. auto.
Qed.

(** ** The handlers of the reactor *)

Lemma sound_open (s : Socket) :
  sound s = true -> sock_closed s = false /\ sock_error s = None.
Proof.
  unfold sound. intros H. apply andb_true_iff in H as [Ho He].
  apply negb_true_iff in Ho. apply bool_decide_eq_true in He. auto.
Qed.

Lemma recv_sound (c : Connection) :
  sound (conn c) = true ->
  Connection.recv 4096 c =
    match sock_inbox (conn c) with
    | [] => if sock_eof (conn c) then (Ok [], c)
            else (Raise (socket_error errno.EWOULDBLOCK), c)
    | _ :: _ => (Ok (take 4096 (sock_inbox (conn c))),
                 mkConnection (Sock.consume 4096 (conn c)) (conn_id c) (send_buf c))
    end.
Proof.
  intros Hs. apply sound_open in Hs as [Ho He].
  unfold Connection.recv, Connection.on_conn, Sock.recv, Sock.live.
  rewrite Ho, He. destruct c as [s i b]. cbn [conn conn_id send_buf] in *.
  destruct (sock_inbox s); [destruct (sock_eof s)|]; reflexivity.
Qed.

Section Handlers.
Context {U : Type} `{!Upstream U}.
Implicit Types (st : TunnelClient U) (r : ref) (c : Connection).

(** X5. [_close_connection] on a registered connection with an open
    socket makes the one call on that object, deletes the entry and leaves
    every other object, every other entry and the tunnel as they were;
    called again for the same id it raises [KeyError] and changes
    nothing. *)
Theorem close_connection_once k (reset : bool) st r c :
  conns st !! k = Some r ->
  objs st !! r = Some c ->
  sock_closed (conn c) = false ->
  exists st1,
    _close_connection k reset st = (Ok tt, st1)
    /\ conns st1 = delete k (conns st)
    /\ objs st1 !! r = Some (closed_object reset c)
    /\ (forall r', r' <> r -> objs st1 !! r' = objs st !! r')
    /\ upstream st1 = upstream st
    /\ log st1 = log st ++ [ev_conn r (if reset then m_reset else m_close)]
    /\ forall reset', _close_connection k reset' st1 = (Raise (KeyError k), st1).
Proof.
  intros Hk Hr Ho. eexists. split.
  { exact (close_connection_registered _ _ _ _ _ Hk Hr Ho). }
  cbn [conns objs upstream log set_conns set_objs set_log].
  split; [reflexivity|]. split; [apply lookup_insert_eq|].
  split; [intros r' Hne; apply lookup_insert_ne; congruence|].
  split; [reflexivity|]. split; [reflexivity|].
  intros reset'. apply close_connection_missing. cbn. apply lookup_delete_eq.
Qed.


(** X7. A read that returns data forwards exactly the bytes read, the
    first 4096 at most of what had arrived and in their order, in one
    [send_packet(stream_id, data)]; what had arrived beyond them stays for
    the next read, the table is unchanged and the outcome is that of
    [send_packet]. *)
Theorem data_is_forwarded st r c :
  objs st !! r = Some c ->
  sound (conn c) = true ->
  sock_inbox (conn c) <> [] ->
  let data := take 4096 (sock_inbox (conn c)) in
  let sent := tunnel_send_packet (conn_id c) data (upstream st) in
  exists st',
    _process_connection r st = (fst sent, st')
    /\ data <> [] /\ (length data <= 4096)%nat
    /\ log st' = log st ++ [ev_conn r m_recv; ev_send_packet (conn_id c) data]
    /\ upstream st' = snd sent
    /\ conns st' = conns st
    /\ objs st' = <[r := mkConnection (Sock.consume 4096 (conn c))
                                      (conn_id c) (send_buf c)]> (objs st)
    /\ data ++ sock_inbox (Sock.consume 4096 (conn c)) = sock_inbox (conn c).
Proof.
  intros Hr Hs Hin data sent.
  pose proof (recv_sound c Hs) as Hrecv.
  destruct (sock_inbox (conn c)) as [|x l] eqn:Hbox; [congruence|].
  unfold _process_connection. rewrite run_bind.
  rewrite (run_on_obj_same r (gets conn_id) st c (Ok (conn_id c)) Hr eq_refl).
  rewrite run_bind. unfold try_except at 1. rewrite run_bind.
  assert (Hr1 : objs (set_log (log st ++ [ev_conn r m_recv]) st) !! r = Some c)
    by exact Hr.
  rewrite (run_call_obj _ _ _ _ _ Hr), Hrecv. cbn [fst snd ret].
  assert (Hd : truthy (take 4096 (x :: l)) = true) by reflexivity.
  rewrite Hd. cbn [negb]. rewrite run_upcall.
  eexists. split; [reflexivity|]. cbn.
  split; [discriminate|]. split; [rewrite length_take; lia|].
  split; [rewrite <- !app_assoc; reflexivity|].
  split; [reflexivity|]. split; [reflexivity|]. split; [reflexivity|].
  rewrite Hbox. apply (take_drop 4096 (x :: l)).
Qed.

(** X8. A read that fails with any socket error but ECONNRESET (a
    would-block after a spurious readiness among them) is not handled: the
    error leaves [_process_connection] with the tunnel not called and the
    table and the connection as they were. *)
Theorem read_error_is_raised st r c en c' :
  objs st !! r = Some c ->
  Connection.recv 4096 c = (Raise (socket_error en), c') ->
  en <> errno.ECONNRESET ->
  _process_connection r st =
    (Raise (socket_error en), set_log (log st ++ [ev_conn r m_recv]) st).
Proof.
  intros Hr Hrecv Hne.
  assert (Hc : c' = c).
  { unfold Connection.recv, Connection.on_conn in Hrecv.
    destruct (Sock.recv 4096 (conn c)) as [res s'] eqn:E.
    injection Hrecv as -> <-.
    unfold Sock.recv, Sock.live in E. destruct c as [s i b]. cbn [conn] in *.
    destruct (sock_closed s); [injection E as _ <-; reflexivity|].
    destruct (sock_error s); [injection E as _ <-; reflexivity|].
    destruct (sock_inbox s); [destruct (sock_eof s)|]; try discriminate E.
    injection E as _ <-. reflexivity. }
  subst c'.
  unfold _process_connection. rewrite run_bind.
  rewrite (run_on_obj_same r (gets conn_id) st c (Ok (conn_id c)) Hr eq_refl).
  rewrite run_bind. unfold try_except at 1. rewrite run_bind, run_call.
  assert (Hr1 : objs (set_log (log st ++ [ev_conn r m_recv]) st) !! r = Some c)
    by exact Hr.
  rewrite (run_on_obj_same r (Connection.recv 4096) _ c _ Hr1 Hrecv).
  apply Z.eqb_neq in Hne. rewrite Hne. reflexivity.
Qed.

End Handlers.

Lemma close_connection_once_witness :
  let st := Sim.client (Sim.stack [] false []) in
  let c := mkConnection (Sim.socket 5 2 [x61; x62] false None) 7 [x78; x79; x7a] in
  exists st1,
    _close_connection 7 true st = (Ok tt, st1)
    /\ conns st1 = delete 7 (conns st)
    /\ objs st1 !! 1%nat = Some (closed_object true c)
    /\ (forall r', r' <> 1%nat -> objs st1 !! r' = objs st !! r')
    /\ upstream st1 = upstream st
    /\ log st1 = log st ++ [ev_conn 1 m_reset]
    /\ forall reset', _close_connection 7 reset' st1 = (Raise (KeyError 7), st1).
Proof.
  intros st c.
  exact (close_connection_once 7 true st 1%nat c eq_refl eq_refl eq_refl).
Defined.


Lemma data_is_forwarded_witness :
  let st := Sim.client (Sim.stack [] false []) in
  let c := mkConnection (Sim.socket 5 2 [x61; x62] false None) 7 [x78; x79; x7a] in
  exists st',
    _process_connection 1%nat st = (Ok tt, st')
    /\ [x61; x62] <> [] /\ (length [x61; x62] <= 4096)%nat
    /\ log st' = log st ++ [ev_conn 1 m_recv; ev_send_packet 7 [x61; x62]]
    /\ upstream st' = Sim.enqueue (7, 1, [x61; x62]) (Sim.stack [] false [])
    /\ conns st' = conns st
    /\ objs st' = <[1%nat := mkConnection (Sock.consume 4096 (conn c)) 7
                                          [x78; x79; x7a]]> (objs st)
    /\ [x61; x62] ++ sock_inbox (Sock.consume 4096 (conn c)) = [x61; x62].
Proof.
  intros st c.
  assert (Hne : sock_inbox (conn c) <> []) by discriminate.
  exact (data_is_forwarded st 1%nat c eq_refl eq_refl Hne).
Defined.

Lemma read_error_is_raised_witness :
  let st := Sim.client_of (Sim.socket 5 2 [] false None) (Sim.stack [] false []) in
  _process_connection 1%nat st =
    (Raise (socket_error errno.EWOULDBLOCK),
     set_log (log st ++ [ev_conn 1 m_recv]) st).
Proof.
  intros st.
  assert (Hne : errno.EWOULDBLOCK <> errno.ECONNRESET) by discriminate.
  exact (read_error_is_raised st 1%nat
           (mkConnection (Sim.socket 5 2 [] false None) 7 [x78; x79; x7a])
           errno.EWOULDBLOCK _ eq_refl eq_refl Hne).
Defined.

Lemma sock_send_linger buf s res s' :
  Sock.send buf s = (res, s') -> sock_linger s' = sock_linger s.
Proof.
  unfold Sock.send, Sock.live.
  destruct (sock_closed s); [intros [= _ <-]; reflexivity|].
  destruct (sock_error s); [intros [= _ <-]; reflexivity|].
  destruct (sock_room s); intros [= _ <-]; reflexivity.
Qed.

Lemma send_keeps_linger (d : option bytes) (c : Connection) res c' :
  Connection.send d c = (res, c') -> sock_linger (conn c') = sock_linger (conn c).
Proof.
  assert (Hnone : forall c0 res0 c0', Connection.send None c0 = (res0, c0') ->
            sock_linger (conn c0') = sock_linger (conn c0)).
  { intros c0 res0 c0'. rewrite send_flush by reflexivity.
    destruct (send_buf c0); [intros [= _ <-]; reflexivity|].
    destruct (Sock.send _ (conn c0)) as [[n|e] s'] eqn:E;
      apply sock_send_linger in E; [intros [= _ <-]; exact E|].
    destruct (would_block e); intros [= _ <-]; exact E. }
  destruct d as [data|]; [|apply Hnone].
  rewrite send_data. intros H. apply Hnone in H. exact H.
Qed.

Section Listening.
Context {U : Type} `{!Upstream U}.
Implicit Types (st : TunnelClient U) (r : ref) (c : Connection).

Lemma listening_open c :
  sock_closed (conn c) = false -> Connection.listening c = (Ok tt, c).
Proof.
  intros Ho. unfold Connection.listening, Connection.on_conn, Sock.listening, Sock.live.
  rewrite Ho. destruct c; reflexivity.
Qed.


(** X10. With no connection waiting, [accept] on the non-blocking
    listening socket raises EWOULDBLOCK, and [_process_listening] lets it
    through before the tunnel is asked for an id: nothing is registered. *)
Theorem accept_without_pending_raises st lc :
  backlog st = [] ->
  objs st !! local_conn st = Some lc ->
  sock_closed (conn lc) = false ->
  _process_listening st =
    (Raise (socket_error errno.EWOULDBLOCK),
     set_log (log st ++ [ev_conn (local_conn st) m_accept]) st).
Proof.
  intros Hb Hlc Ho.
  unfold _process_listening. rewrite run_bind. unfold accept.
  rewrite run_bind, run_gets, run_bind, run_call.
  assert (Hlc1 : objs (set_log (log st ++ [ev_conn (local_conn st) m_accept]) st)
                 !! local_conn st = Some lc) by exact Hlc.
  rewrite (run_on_obj_same _ Connection.listening _ lc _ Hlc1 (listening_open lc Ho)).
  rewrite run_bind, run_gets. cbn [backlog set_log]. rewrite Hb. reflexivity.
Qed.

(** X11. A packet with FIN and without RST, for a registered stream
    whose socket is open with no error pending: the data of a DAT flag is
    first passed to one [send], then the connection is closed with
    [close()] and its entry deleted, at once.  What that one [send] could
    not write stays in the buffer of the closed wrapper: the bytes on the
    wire and the buffer together are the former ones and the data. *)
Theorem fin_closes_without_flushing st (id control : Z) (data : bytes) r c :
  conns st !! id = Some r ->
  objs st !! r = Some c ->
  sound (conn c) = true ->
  has_flag control (rst status) = false ->
  has_flag control (fin status) = true ->
  exists st' c',
    handle_packet (id, control, data) st = (Ok tt, st')
    /\ conns st' = delete id (conns st)
    /\ objs st' !! r = Some c'
    /\ sock_closed (conn c') = true
    /\ sock_linger (conn c') = sock_linger (conn c)
    /\ sock_wire (conn c') ++ send_buf c' =
       sock_wire (conn c) ++ send_buf c
       ++ (if has_flag control (dat status) then data else [])
    /\ log st' = log st
         ++ (if has_flag control (dat status)
             then [ev_conn r (m_send (Some data))] else [])
         ++ [ev_conn r m_close].
Proof.
  intros Hid Hr Hs Hrst Hfin.
  rewrite (handle_packet_known _ _ _ _ _ Hid).
  rewrite run_bind, Hrst. cbn [when ret]. rewrite run_bind, Hfin.
  destruct (has_flag control (dat status)); cbn [when].
  - rewrite (run_call_obj _ _ _ _ _ Hr).
    destruct (Connection.send (Some data) c) as [res c1] eqn:Hsend.
    pose proof (keeps_send _ _ _ _ Hsend) as Hkeep.
    pose proof (send_keeps_linger _ _ _ _ Hsend) as Hlinger.
    apply send_outcome in Hsend as (_ & Hw & Hok).
    destruct (Hok Hs) as [-> Hs1]. cbn [fst snd].
    apply sound_open in Hs1 as [Ho1 _].
    set (st1 := set_objs _ _).
    assert (Hid1 : conns st1 !! id = Some r) by exact Hid.
    assert (Hr1 : objs st1 !! r = Some c1) by apply lookup_insert_eq.
    rewrite (close_connection_registered _ false _ _ _ Hid1 Hr1 Ho1).
    eexists _, (closed_object false c1). split; [reflexivity|]. cbn.
    split; [reflexivity|]. split; [apply lookup_insert_eq|].
    split; [reflexivity|]. split; [exact Hlinger|].
    split; [exact Hw|]. rewrite <- !app_assoc. reflexivity.
  - apply sound_open in Hs as [Ho _]. cbn [ret].
    rewrite (close_connection_registered _ false _ _ _ Hid Hr Ho).
    eexists _, (closed_object false c). split; [reflexivity|]. cbn.
    split; [reflexivity|]. split; [apply lookup_insert_eq|].
    rewrite !app_nil_r. repeat split; reflexivity.
Qed.

(** X13. An object whose stream id is not in the table any more, because
    a packet or a read of the same pass closed it, is passed over by both
    loops of [_process]: no call is made on it and nothing changes. *)
Theorem stale_entity_is_passed_over st r c :
  objs st !! r = Some c ->
  conns st !! conn_id c = None ->
  r <> local_conn st ->
  dispatch (Obj r) st = (Ok tt, st)
  /\ _process_sending (Obj r) st = (Ok tt, st).
Proof.
  intros Hr Hid Hne. split.
  - cbn [dispatch]. rewrite run_bind, run_gets.
    rewrite bool_decide_eq_false_2 by exact Hne. rewrite run_bind.
    rewrite (run_on_obj_same r (gets conn_id) st c (Ok (conn_id c)) Hr eq_refl).
    rewrite run_bind, run_in_conns, Hid. reflexivity.
  - cbn [_process_sending]. rewrite run_bind.
    rewrite (run_on_obj_same r (gets conn_id) st c (Ok (conn_id c)) Hr eq_refl).
    rewrite run_bind, run_in_conns, Hid. reflexivity.
Qed.

End Listening.


Lemma accept_without_pending_raises_witness :
  let st := Sim.client (Sim.stack [] false []) in
  _process_listening st =
    (Raise (socket_error errno.EWOULDBLOCK),
     set_log (log st ++ [ev_conn 0 m_accept]) st).
Proof.
  intros st.
  exact (accept_without_pending_raises st
           (mkConnection (Sim.socket 4 0 [] false None) (-1) [])
           eq_refl eq_refl eq_refl).
Defined.

(** A FIN with data for stream 7, whose socket has room for two bytes:
    two of the four bytes buffered are written, the wrapper is closed with
    the other two and the new byte still in its buffer. *)
Lemma fin_closes_without_flushing_witness :
  let st := Sim.client (Sim.stack [] false []) in
  let c := mkConnection (Sim.socket 5 2 [x61; x62] false None) 7 [x78; x79; x7a] in
  exists st' c',
    handle_packet (7, 3, [x21]) st = (Ok tt, st')
    /\ conns st' = delete 7 (conns st)
    /\ objs st' !! 1%nat = Some c'
    /\ sock_closed (conn c') = true
    /\ sock_linger (conn c') = None
    /\ sock_wire (conn c') ++ send_buf c' = [] ++ [x78; x79; x7a] ++ [x21]
    /\ log st' = log st ++ [ev_conn 1 (m_send (Some [x21]))] ++ [ev_conn 1 m_close].
Proof.
  intros st c.
  exact (fin_closes_without_flushing st 7 3 [x21] 1%nat c
           eq_refl eq_refl eq_refl eq_refl eq_refl).
Defined.

Example fin_leaves_bytes_unsent :
  let st := Sim.client (Sim.stack [] false []) in
  (send_buf <$> objs (snd (handle_packet (7, 3, [x21]) st)) !! 1%nat)
  = Some [x7a; x21].
Proof. vm_compute. reflexivity. Qed.

(** On the wrapper that packet leaves, closed with a byte still buffered,
    [get_wlist] raises. *)
Example fin_leaves_unpollable_wrapper :
  let st := Sim.client (Sim.stack [] false []) in
  ((fun c => fst (Connection.get_wlist c))
     <$> objs (snd (handle_packet (7, 3, [x21]) st)) !! 1%nat)
  = Some (Raise (socket_error errno.EBADF)).
Proof. vm_compute. reflexivity. Qed.

Lemma stale_entity_is_passed_over_witness :
  let st := snd (_close_connection 7 false (Sim.client (Sim.stack [] false []))) in
  dispatch (Obj 1) st = (Ok tt, st)
  /\ _process_sending (Obj 1) st = (Ok tt, st).
Proof.
  intros st.
  assert (Hne : 1%nat <> local_conn st) by discriminate.
  exact (stale_entity_is_passed_over st 1%nat
           (closed_object false
              (mkConnection (Sim.socket 5 2 [x61; x62] false None) 7 [x78; x79; x7a]))
           eq_refl eq_refl Hne).
Defined.

(** ** Inbound data *)

Section Inbound.
Context {U : Type} `{!Upstream U}.
Implicit Types (st : TunnelClient U) (r : ref) (c : Connection).

Lemma table_injective st i j r :
  NoDup (itervalues st) ->
  conns st !! i = Some r -> conns st !! j = Some r -> i = j.
Proof.
  intros Hnd Hi Hj. destruct (decide (i = j)) as [|Hne]; [assumption|exfalso].
  rewrite (itervalues_delete st i r Hi) in Hnd.
  apply NoDup_cons in Hnd as [Hout _]. apply Hout.
  apply elem_of_itervalues. exists j. cbn. rewrite lookup_delete_ne by exact Hne.
  exact Hj.
Qed.

Lemma calm_Calm st : calm st = true -> Calm st.
Proof.
  unfold calm. intros H. apply andb_true_iff in H as [Hnd Hall].
  apply bool_decide_eq_true in Hnd. rewrite forallb_forall in Hall.
  split; [exact Hnd|]. intros r Hr. apply list_elem_of_In in Hr.
  specialize (Hall r Hr). destruct (objs st !! r) as [c|]; [eauto | discriminate].
Qed.

Lemma inbound_data_kept g : forall st,
  Calm st ->
  data_only g = true ->
  exists st',
    receive_loop g st = (Ok tt, st')
    /\ conns st' = conns st
    /\ running st' = running st
    /\ forall id r c,
        conns st !! id = Some r -> objs st !! r = Some c ->
        exists c', objs st' !! r = Some c'
                   /\ sock_wire (conn c') ++ send_buf c' =
                      sock_wire (conn c) ++ send_buf c ++ payload id g.
Proof.
  induction g as [[[i control] data] u rest IH|u|e u]; intros st HC Hg;
    cbn [receive_loop data_only payload] in *.
  - apply andb_true_iff in Hg as [Hg Hrest]. apply andb_true_iff in Hg as [Hrst Hfin].
    apply negb_true_iff in Hrst, Hfin.
    rewrite run_bind, run_modify, run_bind.
    set (st0 := set_upstream u st).
    assert (HC0 : Calm st0) by exact HC.
    destruct (conns st !! i) as [ri|] eqn:Hi.
    + (* a packet for a registered stream *)
      assert (Hi0 : conns st0 !! i = Some ri) by exact Hi.
      rewrite (handle_packet_known _ _ _ _ _ Hi0).
      rewrite run_bind, Hrst. cbn [when ret]. rewrite run_bind, Hfin.
      destruct HC as [Hnd Hall].
      destruct (Hall ri) as (ci & Hci & Hsi);
        [apply elem_of_itervalues; eauto|].
      destruct (has_flag control (dat status)) eqn:Hdat; cbn [when ret].
      * assert (Hci0 : objs st0 !! ri = Some ci) by exact Hci.
        rewrite (run_call_obj _ _ _ _ _ Hci0).
        destruct (Connection.send (Some data) ci) as [res c1] eqn:Hsend.
        apply send_outcome in Hsend as (_ & Hw & Hok).
        destruct (Hok Hsi) as [-> Hs1]. cbn [fst snd].
        set (st1 := set_objs _ _).
        assert (HC1 : Calm st1).
        { split; [exact Hnd|]. intros r Hr. destruct (decide (r = ri)) as [->|Hne].
          - exists c1. split; [apply lookup_insert_eq | exact Hs1].
          - destruct (Hall r Hr) as (c & Hc & Hs). exists c. split; [|exact Hs].
            cbn. rewrite lookup_insert_ne by congruence. exact Hc. }
        destruct (IH st1 HC1 Hrest) as (st' & Hrun & Hconns & Hrng & Hkept).
        exists st'. split; [exact Hrun|]. split; [exact Hconns|]. split; [exact Hrng|].
        intros id r c Hid Hr. destruct (decide (r = ri)) as [->|Hne].
        -- assert (id = i) by exact (table_injective st id i ri Hnd Hid Hi). subst id.
           assert (c = ci) by congruence. subst c.
           destruct (Hkept i ri c1 Hi (lookup_insert_eq _ _ _)) as (c' & Hc' & Hw').
           exists c'. split; [exact Hc'|].
           rewrite Hw', app_assoc, Hw, bool_decide_eq_true_2 by reflexivity.
           cbn. rewrite <- !app_assoc. reflexivity.
        -- assert (Hidne : i <> id) by (intros ->; congruence).
           assert (Hr1 : objs st1 !! r = Some c)
             by (cbn; rewrite lookup_insert_ne by congruence; exact Hr).
           destruct (Hkept id r c Hid Hr1) as (c' & Hc' & Hw').
           exists c'. split; [exact Hc'|].
           rewrite Hw', bool_decide_eq_false_2 by exact Hidne. reflexivity.
      * destruct (IH st0 HC0 Hrest) as (st' & Hrun & Hconns & Hrng & Hkept).
        exists st'. split; [exact Hrun|]. split; [exact Hconns|]. split; [exact Hrng|].
        intros id r c Hid Hr.
        destruct (Hkept id r c Hid Hr) as (c' & Hc' & Hw').
        exists c'. split; [exact Hc'|]. rewrite Hw', andb_false_r. reflexivity.
    + (* a packet for an unknown stream *)
      assert (Hh : handle_packet (i, control, data) st0 = (Ok tt, st0)).
      { unfold handle_packet. rewrite run_bind, run_in_conns.
        change (conns st0) with (conns st). rewrite Hi. reflexivity. }
      rewrite Hh.
      destruct (IH st0 HC0 Hrest) as (st' & Hrun & Hconns & Hrng & Hkept).
      exists st'. split; [exact Hrun|]. split; [exact Hconns|]. split; [exact Hrng|].
      intros id r c Hid Hr.
      destruct (Hkept id r c Hid Hr) as (c' & Hc' & Hw').
      exists c'. split; [exact Hc'|].
      assert (Hidne : i <> id) by (intros ->; congruence).
      rewrite Hw', bool_decide_eq_false_2 by exact Hidne. reflexivity.
  - exists (set_upstream u st). split; [reflexivity|]. split; [reflexivity|].
    split; [reflexivity|]. intros id r c _ Hr. exists c. split; [exact Hr|]. rewrite app_nil_r. reflexivity.
  - discriminate Hg.
Qed.

(** X12. When the table is injective, its sockets are open with no error
    pending, and [receive_packets] ends normally after yielding packets that
    carry neither RST nor FIN, [_process_tunnel] handles them all and
    returns with the table and the running flag unchanged, and for every
    stream the bytes on the wire of its connection
    followed by its buffer are the former ones followed by the data of the
    DAT packets for that stream, in the order they were yielded: inbound
    data is neither lost, duplicated, reordered nor given to another
    stream. *)
Theorem inbound_data_in_order st :
  calm st = true ->
  data_only (tunnel_receive_packets (upstream st)) = true ->
  exists st',
    _process_tunnel st = (Ok tt, st')
    /\ conns st' = conns st
    /\ running st' = running st
    /\ forall id r c,
        conns st !! id = Some r -> objs st !! r = Some c ->
        exists c', objs st' !! r = Some c'
                   /\ sock_wire (conn c') ++ send_buf c' =
                      sock_wire (conn c) ++ send_buf c
                      ++ payload id (tunnel_receive_packets (upstream st)).
Proof.
  intros Hcalm Hg.
  set (st0 := set_log (log st ++ [ev_receive_packets]) st).
  assert (HC0 : Calm st0) by exact (calm_Calm st Hcalm).
  destruct (inbound_data_kept _ st0 HC0 Hg) as (st' & Hrun & Hconns & Hrng & Hkept).
  exists st'. split.
  { unfold _process_tunnel, try_except.
    rewrite run_bind, run_emit. fold st0. rewrite run_bind, run_gets.
    change (upstream st0) with (upstream st). rewrite Hrun. reflexivity. }
  split; [exact Hconns|]. split; [exact Hrng | exact Hkept].
Qed.

End Inbound.

Lemma inbound_data_in_order_witness :
  let u := Sim.stack [(7, 1, [x41]); (9, 1, [x42]); (7, 1, [x43]); (8, 1, [x44])]
                     false [] in
  let st := Sim.client u in
  exists st',
    _process_tunnel st = (Ok tt, st')
    /\ conns st' = conns st
    /\ running st' = running st
    /\ forall id r c,
        conns st !! id = Some r -> objs st !! r = Some c ->
        exists c', objs st' !! r = Some c'
                   /\ sock_wire (conn c') ++ send_buf c' =
                      sock_wire (conn c) ++ send_buf c
                      ++ payload id (tunnel_receive_packets (upstream st)).
Proof.
  intros u st. apply (inbound_data_in_order st); vm_compute; reflexivity.
Defined.

Example inbound_data_example :
  let u := Sim.stack [(7, 1, [x41]); (9, 1, [x42]); (7, 1, [x43]); (8, 1, [x44])]
                     false [] in
  let st' := snd (_process_tunnel (Sim.client u)) in
  ((fun c => (sock_wire (conn c), send_buf c)) <$> objs st' !! 1%nat)
    = Some ([x78; x79], [x7a; x41; x43])
  /\ ((fun c => (sock_wire (conn c), send_buf c)) <$> objs st' !! 2%nat)
    = Some ([x42], []).
Proof. vm_compute. split; reflexivity. Qed.

(** ** The pass and the loop *)

Section Pass.
Context {U : Type} `{!Upstream U}.
Implicit Types (st : TunnelClient U) (r : ref) (c : Connection).

Lemma process_sending_flushes e : emits a_flush (_process_sending e).
Proof.
  intros st res st' Hrun. apply process_sending_log in Hrun as [Hl|Hl].
  - exists []. rewrite app_nil_r. split; [exact Hl | constructor].
  - exists [flush_event e]. split; [exact Hl|].
    constructor; [exists e; reflexivity | constructor].
Qed.

Lemma write_loop_only_flushes wd wlist : forall written,
  emits a_flush (write_loop wd wlist written).
Proof.
  induction wlist as [|fd rest IH]; intros written; cbn [write_loop];
    [apply emits_ret|].
  apply emits_bind; [apply emits_subscript|]. intros e.
  destruct (ObjectSet.contains e written); [apply IH|].
  apply emits_bind; [apply process_sending_flushes|]. intros _. apply IH.
Qed.

(** X14. In every pass of [_process], however it ends, the calls made are
    those of the read loop followed by those of the write loop: every
    flush ([continue_sending()] of the tunnel, [send()] without data of a
    connection) comes after all the reads, accepts, closes and sends of
    data of that pass, and the write loop makes no other call than
    flushes. *)
Theorem reads_before_flushes (t : Tick) st res st' :
  _process t st = (res, st') ->
  exists evs1 evs2,
    log st' = log st ++ evs1 ++ evs2
    /\ Forall not_a_flush evs1
    /\ Forall a_flush evs2.
Proof.
  unfold _process.
  assert (Hnone : log st = log st ++ [] ++ []) by (rewrite !app_nil_r; reflexivity).
  destruct (select_result t) as [[rlist wlist]|ex].
  - rewrite run_bind.
    destruct (read_loop (rdict t) rlist st) as [[[]|ex] st1] eqn:Hread;
      apply read_loop_no_flush in Hread as (evs1 & Hl1 & Hno1).
    + intros Hw. apply write_loop_only_flushes in Hw as (evs2 & Hl2 & Hfl2).
      exists evs1, evs2. rewrite Hl2, Hl1, app_assoc. auto.
    + intros [= <- <-]. exists evs1, []. rewrite app_nil_r. auto.
  - destruct ex as [k|en|en| | |];
      try (intros [= _ <-]; exists [], []; auto).
    destruct (en =? errno.EINTR); intros [= _ <-]; exists [], []; auto.
Qed.

Lemma emits_dispatch P e :
  (forall ev, pass_call ev -> P ev) -> emits P (dispatch e).
Proof.
  intros HP. destruct e as [|r]; cbn [dispatch].
  - apply emits_process_tunnel; intros; apply HP; exact I.
  - apply emits_bind; [apply emits_gets|]. intros lc.
    destruct (bool_decide (r = lc)).
    + apply emits_process_listening; intros; apply HP; exact I.
    + apply emits_bind; [apply emits_on_obj|]. intros id.
      apply emits_bind; [apply emits_gets|]. intros [|]; [|apply emits_ret].
      apply emits_process_connection; intros; apply HP; exact I.
Qed.

(** X18. A pass of [_process], however it ends, calls neither
    [record_conn.close()], nor [record_conn.continue_sending()], nor the
    drain loop's [select], nor [backend.close()]: while the loop runs the
    reactor reaches the record connection and the backend through the
    tunnel only. *)
Theorem pass_leaves_backend_alone (t : Tick) st res st' :
  _process t st = (res, st') ->
  exists evs, log st' = log st ++ evs /\ Forall pass_call evs.
Proof.
  assert (Hp : emits pass_call (_process t)); [|intros Hrun; exact (Hp _ _ _ Hrun)].
  unfold _process. destruct (select_result t) as [[rlist wlist]|ex].
  - apply emits_bind.
    + induction rlist as [|fd rest IH]; cbn [read_loop]; [apply emits_ret|].
      apply emits_bind; [apply emits_subscript|]. intros e.
      apply emits_bind; [apply emits_dispatch; auto|]. intros _. exact IH.
    + intros _. intros st0 res0 st0' Hw.
      apply write_loop_only_flushes in Hw as (evs & Hl & Hfl).
      exists evs. split; [exact Hl|].
      apply (Forall_impl _ _ _ Hfl). intros ev [[|r] ->]; exact I.
  - destruct ex as [k|en|en| | |]; try apply emits_raise.
    destruct (en =? errno.EINTR); [apply emits_ret | apply emits_raise].
Qed.

(** X15. A termination signal only clears the flag: when it arrives
    during a pass that returns, [run] leaves its loop after that pass,
    whatever passes would have followed, and goes on to the shutdown from
    the state that pass left. *)
Theorem signal_ends_run (t : Tick) ticks fuel st st1 :
  _process t (set_running true st) = (Ok tt, st1) ->
  signalled t = true ->
  run (t :: ticks) fuel st = shutdown fuel (set_running false st1).
Proof.
  intros Hp Hsig. unfold run. rewrite run_bind, run_modify, run_bind.
  cbn [run_loop]. rewrite run_bind, run_gets. cbn [running set_running negb].
  rewrite run_bind, Hp, run_bind, Hsig. cbn [when]. rewrite run_modify.
  rewrite run_loop_stopped by reflexivity. reflexivity.
Qed.

(** X16. A [select] interrupted by a signal (EINTR) makes the pass return
    at once with nothing done; with the flag cleared by the handler, [run]
    then shuts down from the state it started in.  Any other [select]
    error leaves [run] at once, with nothing closed. *)
Theorem interrupted_select_skips_pass (t : Tick) ticks fuel st en :
  select_result t = Raise (select_error en) ->
  (en = errno.EINTR ->
     _process t st = (Ok tt, st)
     /\ (signalled t = true ->
         run (t :: ticks) fuel st = shutdown fuel (set_running false st)))
  /\ (en <> errno.EINTR ->
      run (t :: ticks) fuel st = (Raise (select_error en), set_running true st)).
Proof.
  intros Hsel.
  assert (Hp : forall st0, _process t st0 =
            if en =? errno.EINTR then (Ok tt, st0) else (Raise (select_error en), st0)).
  { intros st0. unfold _process. rewrite Hsel.
    destruct (en =? errno.EINTR); reflexivity. }
  split.
  - intros ->. split; [exact (Hp st)|]. intros Hsig. unfold run.
    rewrite run_bind, run_modify, run_bind. cbn [run_loop].
    rewrite run_bind, run_gets. cbn [running set_running negb].
    rewrite run_bind, Hp. cbn [Z.eqb errno.EINTR Pos.eqb].
    rewrite run_bind, Hsig. cbn [when]. rewrite run_modify.
    rewrite run_loop_stopped by reflexivity. reflexivity.
  - intros Hne. apply Z.eqb_neq in Hne. unfold run.
    rewrite run_bind, run_modify, run_bind. cbn [run_loop].
    rewrite run_bind, run_gets. cbn [running set_running negb].
    rewrite run_bind, Hp, Hne. reflexivity.
Qed.

End Pass.

Lemma reads_before_flushes_witness :
  let st := Sim.client (Sim.stack [(7, 1, [x41])] false [(9, 1, [x42])]) in
  let t := mkTick (Ok ([6; 3], [3; 5]))
                  (<[6 := Obj 2]> (<[3 := TheTunnel]> ∅))
                  (<[3 := TheTunnel]> (<[5 := Obj 1]> ∅)) false in
  exists evs1 evs2,
    log (snd (_process t st)) = log st ++ evs1 ++ evs2
    /\ Forall not_a_flush evs1
    /\ Forall a_flush evs2.
Proof.
  intros st t.
  exact (reads_before_flushes t st _ _ (surjective_pairing (_process t st))).
Defined.

Lemma pass_leaves_backend_alone_witness :
  let st := Sim.client (Sim.stack [(7, 1, [x41])] false [(9, 1, [x42])]) in
  let t := mkTick (Ok ([6; 3], [3; 5]))
                  (<[6 := Obj 2]> (<[3 := TheTunnel]> ∅))
                  (<[3 := TheTunnel]> (<[5 := Obj 1]> ∅)) false in
  exists evs, log (snd (_process t st)) = log st ++ evs /\ Forall pass_call evs.
Proof.
  intros st t.
  exact (pass_leaves_backend_alone t st _ _ (surjective_pairing (_process t st))).
Defined.

Lemma signal_ends_run_witness :
  let st := Sim.client (Sim.stack [(7, 1, [x41])] false []) in
  let t := mkTick (Ok ([3], [])) (<[3 := TheTunnel]> ∅) ∅ true in
  run [t; t; t] 4 st =
    shutdown 4 (set_running false (snd (_process t (set_running true st)))).
Proof.
  intros st t.
  assert (Hp : _process t (set_running true st) =
               (Ok tt, snd (_process t (set_running true st))))
    by (vm_compute; reflexivity).
  exact (signal_ends_run t [t; t] 4 st _ Hp eq_refl).
Defined.

Lemma interrupted_select_skips_pass_witness :
  let st := Sim.client (Sim.stack [] false []) in
  let t := mkTick (Raise (select_error errno.EINTR)) ∅ ∅ true in
  _process t st = (Ok tt, st)
  /\ run [t] 4 st = shutdown 4 (set_running false st).
Proof.
  intros st t.
  destruct (proj1 (interrupted_select_skips_pass t [] 4 st errno.EINTR eq_refl)
                  eq_refl) as [H1 H2].
  exact (conj H1 (H2 eq_refl)).
Defined.

Section IdleShutdown.
Context {U : Type} `{!Upstream U}.
Implicit Types (st : TunnelClient U) (r : ref) (c : Connection).


End IdleShutdown.


(** ** [main] *)

Lemma verbose_not_help o : Main.is_verbose o = true -> Main.is_help o = false.
Proof.
  unfold Main.is_verbose, Main.is_help. intros H.
  apply orb_true_iff in H as [H|H]; apply bool_decide_eq_true in H; subst;
    reflexivity.
Qed.

Lemma parse_opts_help opts : forall cf v,
  forallb known_option opts = true ->
  existsb help_option opts = true ->
  Main.parse_opts opts cf v = Main.Halt (Main.SystemExit None).
Proof.
  induction opts as [|[o a] rest IH]; intros cf v Hk Hh; [discriminate Hh|].
  cbn [forallb existsb Main.parse_opts] in *.
  apply andb_true_iff in Hk as [Hko Hk].
  unfold known_option, help_option in Hko, Hh. cbn [fst] in Hko, Hh.
  destruct (Main.is_verbose o) eqn:Hv.
  - rewrite (verbose_not_help o Hv) in Hh. apply IH; assumption.
  - destruct (Main.is_help o) eqn:Hhelp; [reflexivity|].
    destruct (Main.is_config o); [apply IH; assumption | discriminate Hko].
Qed.

(** X19. When [-h] or [--help] is among the options, [main] leaves
    through [sys.exit()] without an argument (exit status 0), prints
    nothing, and neither looks for nor opens any configuration file,
    whatever other options were given. *)
Theorem help_exits_before_any_file {V} (env : Main.Env V) opts :
  Main.getopt env = Some opts ->
  forallb known_option opts = true ->
  existsb help_option opts = true ->
  Main.main env = ([], Main.Halt (Main.SystemExit None)).
Proof.
  intros Hg Hk Hh. unfold Main.main. rewrite Hg.
  rewrite (parse_opts_help opts None false Hk Hh). reflexivity.
Qed.

Lemma last_config_cons oa rest d :
  last_config (oa :: rest) d =
  if config_option oa then last_config rest (Some oa.2) else last_config rest d.
Proof.
  unfold last_config. cbn [List.filter]. destruct (config_option oa); [|reflexivity].
  destruct (List.filter config_option rest) as [|x l]; reflexivity.
Qed.

Lemma parse_opts_without_help opts : forall cf v,
  forallb known_option opts = true ->
  existsb help_option opts = false ->
  Main.parse_opts opts cf v =
    Main.Go (last_config opts cf,
             v || existsb (fun oa => Main.is_verbose oa.1) opts).
Proof.
  induction opts as [|[o a] rest IH]; intros cf v Hk Hh.
  - cbn. rewrite orb_false_r. reflexivity.
  - cbn [forallb existsb Main.parse_opts] in *.
    apply andb_true_iff in Hk as [Hko Hk]. apply orb_false_iff in Hh as [Hho Hh].
    rewrite last_config_cons. unfold config_option.
    unfold known_option, help_option in Hko, Hho. cbn [fst snd] in *.
    rewrite Hho in *. destruct (Main.is_verbose o) eqn:Hv; cbn [negb andb orb].
    + rewrite IH by assumption. rewrite orb_true_r. reflexivity.
    + destruct (Main.is_config o); [|discriminate Hko].
      rewrite IH by assumption. reflexivity.
Qed.

Lemma filter_none {A} (f : A -> bool) (l : list A) :
  existsb f l = false -> List.filter f l = [].
Proof.
  induction l as [|x l IH]; [reflexivity|]. cbn. intros H.
  apply orb_false_iff in H as [Hx Hl]. rewrite Hx. exact (IH Hl).
Qed.

Lemma last_config_last pre oa post d :
  config_option oa = true ->
  existsb config_option post = false ->
  last_config (pre ++ oa :: post) d = Some oa.2.
Proof.
  intros Hc Hpost. unfold last_config.
  rewrite List.filter_app. cbn [List.filter]. rewrite Hc, (filter_none _ _ Hpost).
  destruct (List.filter config_option pre ++ [oa]) as [|x l] eqn:E.
  - apply app_eq_nil in E as [_ E]. discriminate E.
  - rewrite <- E, List.last_last. reflexivity.
Qed.

(** X20. The loop over the options, when none of them is a help option:
    the configuration file is the argument of the last [-c]/[--config]
    option, whatever came before it, and [verbose] tells whether a
    [-v]/[--verbose] occurred. *)
Theorem last_config_option_wins pre o a post :
  forallb known_option (pre ++ (o, a) :: post) = true ->
  existsb help_option (pre ++ (o, a) :: post) = false ->
  Main.is_config o = true ->
  existsb config_option post = false ->
  Main.parse_opts (pre ++ (o, a) :: post) None false =
    Main.Go (Some a,
             existsb (fun oa => Main.is_verbose oa.1) (pre ++ (o, a) :: post)).
Proof.
  intros Hk Hh Hc Hpost.
  rewrite (parse_opts_without_help _ None false Hk Hh). cbn [orb].
  assert (Hco : config_option (o, a) = true).
  { rewrite existsb_app in Hh. apply orb_false_iff in Hh as [_ Hh].
    cbn [existsb] in Hh. apply orb_false_iff in Hh as [Hh _].
    unfold help_option in Hh. cbn [fst] in Hh.
    unfold config_option. cbn [fst]. rewrite Hh, Hc.
    destruct (Main.is_verbose o) eqn:Hv; [|reflexivity].
    unfold Main.is_verbose, Main.is_config in Hv, Hc.
    apply orb_true_iff in Hv as [Hv|Hv]; apply bool_decide_eq_true in Hv; subst;
      vm_compute in Hc; discriminate Hc. }
  rewrite (last_config_last pre (o, a) post None Hco Hpost). reflexivity.
Qed.

Lemma last_config_option_wins_witness :
  Main.parse_opts [("-c", "a.yaml"); ("-v", ""); ("--config", "b.yaml"); ("-v", "")]%string
                  None false
  = Main.Go (Some "b.yaml"%string, true).
Proof.
  exact (last_config_option_wins [("-c", "a.yaml"); ("-v", "")]%string
           "--config"%string "b.yaml"%string [("-v", "")]%string
           eq_refl eq_refl eq_refl eq_refl).
Defined.

(** X21. With a [-c]/[--config] option and no help option, what [main]
    does depends on the file named by the last such option only, and that
    file is opened without being looked for: [main] goes on with the
    [client] section of what was loaded, leaves with status 1 and a message
    when there is no such section, and with the error of the load when that
    fails.  The default files are not consulted. *)
Theorem config_option_is_opened_unchecked {V} (env : Main.Env V) pre o f post :
  Main.getopt env = Some (pre ++ (o, f) :: post) ->
  forallb known_option (pre ++ (o, f) :: post) = true ->
  existsb help_option (pre ++ (o, f) :: post) = false ->
  Main.is_config o = true ->
  existsb config_option post = false ->
  Main.main env =
    match Main.yaml_load env f with
    | None => ([], Main.Halt Main.IOError)
    | Some config =>
        match config !! "client"%string with
        | None => (["cannot find client config"%string],
                   Main.Halt (Main.SystemExit (Some 1)))
        | Some client => ([], Main.Go client)
        end
    end.
Proof.
  intros Hg Hk Hh Hc Hpost. unfold Main.main. rewrite Hg.
  rewrite (parse_opts_without_help _ None false Hk Hh).
  assert (Hco : config_option (o, f) = true).
  { rewrite existsb_app in Hh. apply orb_false_iff in Hh as [_ Hh].
    cbn [existsb] in Hh. apply orb_false_iff in Hh as [Hh _].
    unfold help_option in Hh. cbn [fst] in Hh.
    unfold config_option. cbn [fst]. rewrite Hh, Hc.
    destruct (Main.is_verbose o) eqn:Hv; [|reflexivity].
    unfold Main.is_verbose, Main.is_config in Hv, Hc.
    apply orb_true_iff in Hv as [Hv|Hv]; apply bool_decide_eq_true in Hv; subst;
      vm_compute in Hc; discriminate Hc. }
  rewrite (last_config_last pre (o, f) post None Hco Hpost). reflexivity.
Qed.

Lemma parse_opts_halt opts : forall cf v h,
  Main.parse_opts opts cf v = Main.Halt h ->
  h = Main.SystemExit None \/ h = Main.AssertionError "unhandled option".
Proof.
  induction opts as [|[o a] rest IH]; intros cf v h; cbn [Main.parse_opts];
    [discriminate|].
  destruct (Main.is_verbose o); [apply IH|].
  destruct (Main.is_help o); [intros [= <-]; auto|].
  destruct (Main.is_config o); [apply IH | intros [= <-]; auto].
Qed.

(** X22. Exit status 2 means that no configuration file was found: the
    command line was accepted, it named no file, and neither
    [./config.yaml] nor [~/.usocks.yaml] exists.  A command line that
    [getopt] rejects does not reach the [sys.exit(2)] of its handler: the
    handler's [print(str(err), ...)] names a variable that does not exist,
    so [main] ends in [NameError] with nothing printed. *)
Theorem exit_2_means_no_config {V} (env : Main.Env V) :
  (forall out, Main.main env = (out, Main.Halt (Main.SystemExit (Some 2))) ->
     out = ["cannot find config file"%string]
     /\ (exists opts v, Main.getopt env = Some opts
                        /\ Main.parse_opts opts None false = Main.Go (None, v))
     /\ Main.path_exists env (Main.abspath_config env) = false
     /\ Main.path_exists env (Main.home_config env) = false)
  /\ (Main.getopt env = None ->
      Main.main env = ([], Main.Halt (Main.NameError "err"))).
Proof.
  split.
  - intros out. unfold Main.main.
    destruct (Main.getopt env) as [opts|]; [|discriminate].
    destruct (Main.parse_opts opts None false) as [[cf v]|h] eqn:Hp.
    2:{ intros [= _ ->]. apply parse_opts_halt in Hp as [Hp|Hp]; discriminate Hp. }
    assert (Hload : forall f,
      match Main.yaml_load env f with
      | Some config =>
          match config !! "client"%string with
          | Some client => ([], Main.Go client)
          | None => (["cannot find client config"%string],
                     Main.Halt (Main.SystemExit (Some 1)))
          end
      | None => ([], Main.Halt Main.IOError)
      end <> (out, Main.Halt (Main.SystemExit (Some 2)))).
    { intros f. destruct (Main.yaml_load env f) as [config|]; [|discriminate].
      destruct (config !! "client"%string); discriminate. }
    destruct cf as [f|]; [intros H; exfalso; exact (Hload f H)|].
    cbn [Main.find_config].
    destruct (Main.path_exists env (Main.abspath_config env));
      [intros H; exfalso; exact (Hload _ H)|].
    destruct (Main.path_exists env (Main.home_config env));
      [intros H; exfalso; exact (Hload _ H)|].
    intros [= <-]. repeat split. eauto.
  - intros Hg. unfold Main.main. rewrite Hg. reflexivity.
Qed.

Lemma help_exits_before_any_file_witness :
  Main.main (sample_env (Some [("-c", "nowhere.yaml"); ("--help", "")]%string)
                        false false)
  = ([], Main.Halt (Main.SystemExit None)).
Proof.
  exact (help_exits_before_any_file
           (sample_env (Some [("-c", "nowhere.yaml"); ("--help", "")]%string) false false)
           [("-c", "nowhere.yaml"); ("--help", "")]%string
           eq_refl eq_refl eq_refl).
Defined.

Lemma config_option_is_opened_unchecked_witness :
  Main.main (sample_env (Some [("-v", ""); ("-c", "usocks.yaml")]%string) true true)
  = ([], Main.Go 8000).
Proof.
  exact (config_option_is_opened_unchecked
           (sample_env (Some [("-v", ""); ("-c", "usocks.yaml")]%string) true true)
           [("-v", "")]%string "-c"%string "usocks.yaml"%string []
           eq_refl eq_refl eq_refl eq_refl eq_refl).
Defined.

Lemma exit_2_means_no_config_witness :
  let env := sample_env (Some [("-v", "")]%string) false false in
  ["cannot find config file"%string] = ["cannot find config file"%string]
  /\ (exists opts v, Main.getopt env = Some opts
                     /\ Main.parse_opts opts None false = Main.Go (None, v))
  /\ Main.path_exists env (Main.abspath_config env) = false
  /\ Main.path_exists env (Main.home_config env) = false.
Proof.
  intros env.
  exact (proj1 (exit_2_means_no_config env) _ eq_refl).
Defined.

(** A rejected command line. *)
Example bad_command_line :
  Main.main (sample_env None true true) = ([], Main.Halt (Main.NameError "err")).
Proof. reflexivity. Qed.
